(** * geforcenow-proxy: URL resolver, cookie relay, connection relay, dispatcher

    A shallow embedding of the stateful core of the proxy:
      - [Rewriter]   : [rewriteUrl]                    (src/http-rewriter.js)
      - [Cookies]    : [CookieRelayMiddleware]         (src/session-cookie-middleware.js)
      - [Relay]      : [WebSocketRelay]                (src/websocket-webrtc-relay.js)
      - [Dispatcher] : the [/api/*] handlers           (the Express entry point)
      - [Css], [Session], [Auth], [Injector] : [rewriteCss],
        [configureSessionMiddleware], [AuthenticationStateMiddleware] and the
        service worker injector

    Part I holds the definitions, Part II and Part III the lemmas and
    theorems. *)

From stdpp Require Import gmap strings list.
From Stdlib Require Import Ascii.

#[local] Set Warnings "-clear-no-such-hyp".
Local Open Scope Z_scope.

(* ===================================================================== *)
(** * Part I — definitions                                                *)
(* ===================================================================== *)

(** ** JavaScript built-ins used by the sources

    A JavaScript string is represented by the bytes of its UTF-8 encoding
    (well-formed Unicode text, no lone surrogates).  Every delimiter the
    sources search for is ASCII, and an ASCII byte never occurs inside a
    multi-byte UTF-8 sequence, so prefix tests and splitting on bytes agree
    with the same operations on UTF-16 code units. *)
Module Js.

(** [s.startsWith(p)] *)
Definition startsWith (s p : string) : bool := String.prefix p s.

(** [s.split(c)] for a one-character separator: the pieces between the
    occurrences of [c]; never the empty array. *)
Fixpoint split (c : ascii) (s : string) : list string :=
  match s with
  | EmptyString => [EmptyString]
  | String a s' =>
      if decide (a = c) then EmptyString :: split c s'
      else match split c s' with
           | piece :: pieces => String a piece :: pieces
           | [] => [String a EmptyString]
           end
  end.

Definition bytes (l : list nat) : string :=
  String.string_of_list_ascii (ascii_of_nat <$> l).

(** The code points ECMAScript calls WhiteSpace or LineTerminator, each in
    UTF-8: TAB LF VT FF CR SP, U+00A0, U+1680, U+2000..U+200A, U+2028,
    U+2029, U+202F, U+205F, U+3000, U+FEFF. *)
Definition whiteSpace : list string :=
  [ bytes [9%nat]; bytes [10%nat]; bytes [11%nat]; bytes [12%nat];
    bytes [13%nat]; bytes [32%nat];
    bytes [194; 160]%nat;
    bytes [225; 154; 128]%nat;
    bytes [226; 128; 128]%nat; bytes [226; 128; 129]%nat;
    bytes [226; 128; 130]%nat; bytes [226; 128; 131]%nat;
    bytes [226; 128; 132]%nat; bytes [226; 128; 133]%nat;
    bytes [226; 128; 134]%nat; bytes [226; 128; 135]%nat;
    bytes [226; 128; 136]%nat; bytes [226; 128; 137]%nat;
    bytes [226; 128; 138]%nat;
    bytes [226; 128; 168]%nat; bytes [226; 128; 169]%nat;
    bytes [226; 128; 175]%nat;
    bytes [226; 129; 159]%nat;
    bytes [227; 128; 128]%nat;
    bytes [239; 187; 191]%nat ].

(** [dropPrefix p s] is the rest of [s] after a leading [p], if any. *)
Fixpoint dropPrefix (p s : string) : option string :=
  match p, s with
  | EmptyString, _ => Some s
  | String a p', String b s' =>
      if decide (a = b) then dropPrefix p' s' else None
  | String _ _, EmptyString => None
  end.

(** Removes one leading occurrence of one of [seqs]. *)
Fixpoint dropOneOf (seqs : list string) (s : string) : option string :=
  match seqs with
  | [] => None
  | p :: seqs' =>
      match p, dropPrefix p s with
      | String _ _, Some rest => Some rest
      | _, _ => dropOneOf seqs' s
      end
  end.

Fixpoint dropWhileOneOf (fuel : nat) (seqs : list string) (s : string) : string :=
  match fuel with
  | O => s
  | S fuel' =>
      match dropOneOf seqs s with
      | Some rest => dropWhileOneOf fuel' seqs rest
      | None => s
      end
  end.

Definition trimStart (s : string) : string :=
  dropWhileOneOf (String.length s) whiteSpace s.

Definition trimEnd (s : string) : string :=
  String.rev
    (dropWhileOneOf (String.length s) (String.rev <$> whiteSpace) (String.rev s)).

(** [s.trim()] *)
Definition trim (s : string) : string := trimEnd (trimStart s).

(** [encodeURIComponent]: the unreserved set is
    [A-Z a-z 0-9 - _ . ! ~ * ' ( )]; every other byte of the UTF-8
    encoding becomes [%XX] with upper-case hexadecimal digits. *)
Definition isUnreserved (a : ascii) : bool :=
  let n := nat_of_ascii a in
  ((65 <=? n) && (n <=? 90) || (97 <=? n) && (n <=? 122)
   || (48 <=? n) && (n <=? 57))%nat
  || bool_decide (a ∈ String.list_ascii_of_string "-_.!~*'()").

Definition hexDigit (n : nat) : ascii :=
  if (n <? 10)%nat then ascii_of_nat (48 + n) else ascii_of_nat (55 + n).

Definition percentEncode (a : ascii) : string :=
  let n := nat_of_ascii a in
  String "%" (String (hexDigit (n / 16)) (String (hexDigit (n mod 16)) EmptyString)).

Fixpoint encodeURIComponent (s : string) : string :=
  match s with
  | EmptyString => EmptyString
  | String a s' =>
      (if isUnreserved a then String a EmptyString else percentEncode a)
        +:+ encodeURIComponent s'
  end.

(** Lower-casing of the ASCII letters, the part of
    [String.prototype.toLowerCase] that is exact on ASCII text. *)
Definition lowerASCII (a : ascii) : ascii :=
  let n := nat_of_ascii a in
  if ((65 <=? n) && (n <=? 90))%nat then ascii_of_nat (n + 32) else a.

Fixpoint toLowerCaseASCII (s : string) : string :=
  match s with
  | EmptyString => EmptyString
  | String a s' => String (lowerASCII a) (toLowerCaseASCII s')
  end.

(** The bytes of a string, to say that a character does not occur in it. *)
Definition chars (s : string) : list ascii := String.list_ascii_of_string s.

(** The primitive values the cookie code stores. *)
Inductive value :=
| VUndefined
| VBool (b : bool)
| VString (s : string).

#[global] Instance value_eq_dec : EqDecision value.
Proof. solve_decision. Defined.

(** A plain object ([{}]) used as a dictionary, by its own enumerable
    properties.  [o[k] = v] is an ordinary property write: for the key
    [__proto__] it reaches the accessor inherited from [Object.prototype],
    whose setter ignores every primitive value, so no own property is
    created.  All members of [value] are primitives. *)
Definition object_set (o : gmap string value) (k : string) (v : value)
  : gmap string value :=
  if decide (k = "__proto__") then o else <[k := v]> o.

(** [Object.assign(target, source)]: one property write per own enumerable
    property of [source]. *)
Definition object_assign (target source : gmap string value)
  : gmap string value :=
  delete "__proto__" source ∪ target.

(** Numbers as the relay statistics need them: integers and the two
    infinities. *)
Inductive number :=
| Fin (z : Z)
| PosInfinity
| NegInfinity.

(** [Math.min(...xs)]; [Infinity] for no argument. *)
Definition Math_min (xs : list Z) : number :=
  foldr (λ x acc, match acc with
                  | Fin m => Fin (Z.min x m)
                  | _ => Fin x
                  end) PosInfinity xs.

(** [a - b] for an integer [a]. *)
Definition minus (a : Z) (b : number) : number :=
  match b with
  | Fin z => Fin (a - z)
  | PosInfinity => NegInfinity
  | NegInfinity => PosInfinity
  end.

(** An insertion-ordered [Map] with string keys: [set] keeps the position
    of a key that is present and appends a new one; iteration follows the
    list. *)
Section OrderedMap.
Context {V : Type}.

Fixpoint map_get (k : string) (m : list (string * V)) : option V :=
  match m with
  | [] => None
  | (k', v) :: m' => if decide (k = k') then Some v else map_get k m'
  end.

Definition map_has (k : string) (m : list (string * V)) : bool :=
  bool_decide (is_Some (map_get k m)).

Fixpoint map_set (k : string) (v : V) (m : list (string * V))
  : list (string * V) :=
  match m with
  | [] => [(k, v)]
  | (k', v') :: m' =>
      if decide (k = k') then (k, v) :: m' else (k', v') :: map_set k v m'
  end.

Fixpoint map_delete (k : string) (m : list (string * V))
  : list (string * V) :=
  match m with
  | [] => []
  | (k', v') :: m' =>
      if decide (k = k') then map_delete k m' else (k', v') :: map_delete k m'
  end.

Definition map_size (m : list (string * V)) : nat := length m.
Definition map_values (m : list (string * V)) : list V := snd <$> m.
End OrderedMap.

End Js.

(** ** src/http-rewriter.js — the URL resolver *)
Module Rewriter.
Import Js.

(** The fields of a WHATWG [URL] object that [rewriteUrl] reads. *)
Record URL := mkURL {
  protocol : string;   (* with its colon, as in [https:] *)
  host : string;
  href : string
}.

Section Resolver.
(** [new URL(s)] and [new URL(s, base)] belong to the runtime; [None] stands
    for the [TypeError] they throw on an unparsable argument. *)
Variable newURL : string → option URL.
Variable newURLrel : string → string → option URL.

(** [`${proxyBaseUrl}/proxy?url=${encodeURIComponent(absolute)}`] *)
Definition proxyLink (proxyBaseUrl absolute : string) : string :=
  proxyBaseUrl +:+ "/proxy?url=" +:+ encodeURIComponent absolute.

(** [rewriteUrl(url, proxyBaseUrl, targetUrl)]; [None] when a [URL]
    constructor throws (the function itself has no handler). *)
Definition rewriteUrl (url proxyBaseUrl targetUrl : string) : option string :=
  if bool_decide (url = "") || bool_decide (url = "#")
     || startsWith url "javascript:" then Some url
  else if startsWith url proxyBaseUrl then Some url
  else if startsWith url "http://" || startsWith url "https://" then
    Some (proxyLink proxyBaseUrl url)
  else if startsWith url "//" then
    Some (proxyLink proxyBaseUrl ("https:" +:+ url))
  else if startsWith url "/" then
    targetBase ← newURL targetUrl;
    Some (proxyLink proxyBaseUrl
            (protocol targetBase +:+ "//" +:+ host targetBase +:+ url))
  else if negb (startsWith url "#") then
    targetBase ← newURL targetUrl;
    absolute ← newURLrel url targetUrl;
    Some (proxyLink proxyBaseUrl (href absolute))
  else Some url.

End Resolver.
End Rewriter.

(** ** src/session-cookie-middleware.js — the cookie relay *)
Module Cookies.
Import Js.

(** [this.options] of [CookieRelayMiddleware]. *)
Record options := mkOptions {
  stripSecure : bool;
  stripHttpOnly : bool;
  cookieWhitelist : list string;
  cookieBlacklist : list string
}.

(** What the caller passes to the constructor: every key is optional. *)
Record userOptions := mkUserOptions {
  given_stripSecure : option bool;
  given_stripHttpOnly : option bool;
  given_cookieWhitelist : option (list string);
  given_cookieBlacklist : option (list string)
}.

(** The constructor: [x || default] for each key, then [...options] writes
    every given key over it, so a given key always wins. *)
Definition constructor (given : userOptions) : options :=
  {| stripSecure := default false (given_stripSecure given);
     stripHttpOnly := default false (given_stripHttpOnly given);
     cookieWhitelist := default [] (given_cookieWhitelist given);
     cookieBlacklist := default [] (given_cookieBlacklist given) |}.

(** The object [parseCookieString] returns. *)
Record parsedCookie := mkParsed {
  name : string;
  value : Js.value;
  attributes : gmap string Js.value
}.

(** [this.cookieStore]: session id to jar, a jar being a plain object from
    cookie name to value. *)
Definition emptyStore : gmap string (gmap string Js.value) := ∅.

(** [arr.includes(x)] *)
Definition includes (arr : list string) (x : string) : bool :=
  bool_decide (x ∈ arr).

(** The relay policy in the words of the specification: the allow-list is
    empty or contains the name, and the deny-list does not contain it. *)
Definition policyAdmits (o : options) (cookieName : string) : bool :=
  (bool_decide (cookieWhitelist o = []) || includes (cookieWhitelist o) cookieName)
  && negb (includes (cookieBlacklist o) cookieName).

(** [storeCookies(sessionId, cookies)] *)
Definition storeCookies (sessionId : string) (cookies : gmap string Js.value)
    (cookieStore : gmap string (gmap string Js.value))
  : gmap string (gmap string Js.value) :=
  let cookieStore1 :=
    match cookieStore !! sessionId with
    | Some _ => cookieStore
    | None => <[sessionId := ∅]> cookieStore
    end in
  match cookieStore1 !! sessionId with
  | Some sessionCookies =>
      <[sessionId := object_assign sessionCookies cookies]> cookieStore1
  | None => cookieStore1
  end.

(** [getCookies(sessionId)] *)
Definition getCookies (sessionId : string)
    (cookieStore : gmap string (gmap string Js.value)) : gmap string Js.value :=
  default ∅ (cookieStore !! sessionId).

(** [clearCookies(sessionId)] *)
Definition clearCookies (sessionId : string)
    (cookieStore : gmap string (gmap string Js.value))
  : gmap string (gmap string Js.value) :=
  delete sessionId cookieStore.

(** Lines 100-105 of [relayCookie]: the two attribute overrides. *)
Definition applyOverrides (o : options) (parsed : parsedCookie) : parsedCookie :=
  let attrs1 :=
    if stripSecure o then object_set (attributes parsed) "secure" (VBool false)
    else attributes parsed in
  let attrs2 :=
    if stripHttpOnly o then object_set attrs1 "httpOnly" (VBool false)
    else attrs1 in
  {| name := name parsed; value := value parsed; attributes := attrs2 |}.

Section Parser.
(** [String.prototype.toLowerCase], a runtime function (full Unicode case
    mapping). *)
Variable toLowerCase : string → string.

(** One turn of the attribute loop:
    [[attrName, attrValue] = part.split('=').map(trim)] and
    [attributes[attrName.toLowerCase()] = attrValue || true]. *)
Definition parseAttribute (attrs : gmap string Js.value) (part : string)
  : gmap string Js.value :=
  let pieces := trim <$> split "=" part in
  let attrName := default "" (pieces !! 0%nat) in
  let attrValue :=
    match pieces !! 1%nat with
    | Some v => if bool_decide (v = "") then VBool true else VString v
    | None => VBool true
    end in
  object_set attrs (toLowerCase attrName) attrValue.

(** [parseCookieString(cookieString)] *)
Definition parseCookieString (cookieString : string) : parsedCookie :=
  let parts := trim <$> split ";" cookieString in
  let nameValue := default "" (parts !! 0%nat) in
  let pieces := split "=" nameValue in
  {| name := default "" (pieces !! 0%nat);
     value := match pieces !! 1%nat with
              | Some v => VString v
              | None => VUndefined
              end;
     attributes := foldl parseAttribute ∅ (drop 1 parts) |}.

(** [relayCookie(sessionId, cookieString)].  On a string argument nothing in
    the [try] block throws, so the handler never runs; the two console lines
    are not part of the state. *)
Definition relayCookie (o : options) (sessionId cookieString : string)
    (cookieStore : gmap string (gmap string Js.value))
  : gmap string (gmap string Js.value) :=
  let parsed := parseCookieString cookieString in
  if bool_decide (0 < length (cookieWhitelist o))%nat
     && negb (includes (cookieWhitelist o) (name parsed)) then cookieStore
  else if includes (cookieBlacklist o) (name parsed) then cookieStore
  else
    let parsed := applyOverrides o parsed in
    storeCookies sessionId {[ name parsed := value parsed ]} cookieStore.

End Parser.
End Cookies.

(** ** src/websocket-webrtc-relay.js — the connection relay *)
Module Relay.
Import Js.

(** A handle for the [ws] socket object a connection owns. *)
Definition socket := nat.

(** [ws.readyState] *)
Inductive readyState := CONNECTING | OPEN | CLOSING | CLOSED.

#[global] Instance readyState_eq_dec : EqDecision readyState.
Proof. solve_decision. Defined.

(** [connectionData] *)
Record connectionData := mkConnection {
  id : string;
  ws : socket;
  ip : string;
  createdAt : Z;
  lastActivity : Z;
  messages : nat
}.

(** [this.options]; the maximum is a number of connections. *)
Record options := mkOptions {
  timeout : Z;
  heartbeatInterval : Z;
  maxConnections : nat
}.

Record userOptions := mkUserOptions {
  given_timeout : option Z;
  given_heartbeatInterval : option Z;
  given_maxConnections : option nat
}.

(** [this] of a [WebSocketRelay]: the options and the registry, a [Map] from
    connection id to [connectionData]. *)
Record relay := mkRelay {
  opts : options;
  connections : list (string * connectionData)
}.

(** The constructor: the defaults, overwritten by every given key, and an
    empty registry. *)
Definition constructor (given : userOptions) : relay :=
  {| opts := {| timeout := default 60000 (given_timeout given);
                heartbeatInterval := default 30000 (given_heartbeatInterval given);
                maxConnections := default 1000%nat (given_maxConnections given) |};
     connections := [] |}.

Definition with_connections (r : relay) (m : list (string * connectionData))
  : relay :=
  {| opts := opts r; connections := m |}.

(** The payload [handleMessage] sends back. *)
Record echo := mkEcho {
  echo_type : string;
  echo_timestamp : Z;
  echo_length : Z
}.

(** What the relay does to the outside: console lines and socket calls. *)
Inductive effect :=
| LogNewConnection (clientIp connectionId : string)
| LogMessage (connectionId : string) (len : Z)
| LogClosed (connectionId : string) (count : nat)
| LogError (connectionId message : string)
| LogIdle (connectionId : string)
| WsClose (w : socket) (code : Z) (reason : string)
| WsPing (w : socket)
| WsSend (w : socket) (payload : echo).

#[global] Instance echo_eq_dec : EqDecision echo.
Proof. solve_decision. Defined.

#[global] Instance effect_eq_dec : EqDecision effect.
Proof. solve_decision. Defined.

(** [handleConnection(ws, request)].  [connectionId] is what
    [generateConnectionId()] returned (clock and [Math.random]), [clientIp]
    is [request.socket.remoteAddress], [now1] and [now2] are the two
    [Date.now()] readings. *)
Definition handleConnection (w : socket) (clientIp connectionId : string)
    (now1 now2 : Z) (r : relay) : relay * list effect :=
  if bool_decide (maxConnections (opts r) ≤ map_size (connections r))%nat then
    (r, [LogNewConnection clientIp connectionId;
         WsClose w 1008 "Server at max capacity"])
  else
    let connectionData :=
      {| id := connectionId; ws := w; ip := clientIp;
         createdAt := now1; lastActivity := now2; messages := 0 |} in
    (with_connections r (map_set connectionId connectionData (connections r)),
     [LogNewConnection clientIp connectionId]).

(** [handleMessage(connectionId, data)]; [len] is [data.length], [state] the
    socket's [readyState], [now1] and [now2] the two clock readings. *)
Definition handleMessage (connectionId : string) (len : Z) (state : readyState)
    (now1 now2 : Z) (r : relay) : relay * list effect :=
  match map_get connectionId (connections r) with
  | None => (r, [])
  | Some conn =>
      let conn' :=
        {| id := id conn; ws := ws conn; ip := ip conn;
           createdAt := createdAt conn; lastActivity := now1;
           messages := S (messages conn) |} in
      (with_connections r (map_set connectionId conn' (connections r)),
       LogMessage connectionId len ::
       (if decide (state = OPEN) then
          [WsSend (ws conn)
             {| echo_type := "relay-echo"; echo_timestamp := now2;
                echo_length := len |}]
        else []))
  end.

(** [handleClose(connectionId)] *)
Definition handleClose (connectionId : string) (r : relay)
  : relay * list effect :=
  match map_get connectionId (connections r) with
  | None => (r, [])
  | Some conn =>
      (with_connections r (map_delete connectionId (connections r)),
       [LogClosed connectionId (messages conn)])
  end.

(** [handleError(connectionId, error)]; [message] is [error.message]. *)
Definition handleError (connectionId message : string) (r : relay)
  : relay * list effect :=
  (r, [LogError connectionId message]).

(** The [pong] listener installed by [handleConnection]. *)
Definition handlePong (connectionId : string) (now : Z) (r : relay)
  : relay * list effect :=
  match map_get connectionId (connections r) with
  | None => (r, [])
  | Some conn =>
      let conn' :=
        {| id := id conn; ws := ws conn; ip := ip conn;
           createdAt := createdAt conn; lastActivity := now;
           messages := messages conn |} in
      (with_connections r (map_set connectionId conn' (connections r)), [])
  end.

(** The test of the heartbeat loop: [now - conn.lastActivity > timeout]. *)
Definition idle (o : options) (now : Z) (conn : connectionData) : bool :=
  bool_decide (timeout o < now - lastActivity conn).

(** The body of the heartbeat loop over the entries of the registry, in
    iteration order: an idle entry is closed and deleted, any other entry is
    pinged; the first component is what is left of the entries. *)
Fixpoint sweep (o : options) (now : Z) (entries : list (string * connectionData))
  : list (string * connectionData) * list effect :=
  match entries with
  | [] => ([], [])
  | (cid, conn) :: rest =>
      let '(kept, out) := sweep o now rest in
      if idle o now conn then
        (kept, LogIdle cid :: WsClose (ws conn) 1000 "Timeout" :: out)
      else
        ((cid, conn) :: kept, WsPing (ws conn) :: out)
  end.

(** One firing of the timer [startHeartbeat] installs. *)
Definition heartbeat (now : Z) (r : relay) : relay * list effect :=
  let '(kept, out) := sweep (opts r) now (connections r) in
  (with_connections r kept, out).

(** [getStats()] *)
Record stats := mkStats {
  activeConnections : nat;
  totalMessages : nat;
  oldestConnectionAge : number;
  maxCapacity : nat
}.

Definition getStats (now : Z) (r : relay) : stats :=
  let oldestConnection := Math_min (createdAt <$> map_values (connections r)) in
  let totalMessages :=
    foldl (λ total conn, (total + messages conn)%nat) 0%nat
          (map_values (connections r)) in
  {| activeConnections := map_size (connections r);
     totalMessages := totalMessages;
     oldestConnectionAge := minus now oldestConnection;
     maxCapacity := maxConnections (opts r) |}.

(** What can happen to a relay: an upgrade on [/ws-relay], the four socket
    events, and a heartbeat tick. *)
Inductive event :=
| Upgrade (w : socket) (clientIp connectionId : string) (now1 now2 : Z)
| Message (connectionId : string) (len : Z) (state : readyState) (now1 now2 : Z)
| Close (connectionId : string)
| Error (connectionId message : string)
| Pong (connectionId : string) (now : Z)
| Heartbeat (now : Z).

Definition step (r : relay) (e : event) : relay * list effect :=
  match e with
  | Upgrade w clientIp cid now1 now2 => handleConnection w clientIp cid now1 now2 r
  | Message cid len state now1 now2 => handleMessage cid len state now1 now2 r
  | Close cid => handleClose cid r
  | Error cid message => handleError cid message r
  | Pong cid now => handlePong cid now r
  | Heartbeat now => heartbeat now r
  end.

(** The relay after a sequence of events, with everything it did. *)
Fixpoint run (r : relay) (events : list event) : relay * list effect :=
  match events with
  | [] => (r, [])
  | e :: events' =>
      let '(r1, out1) := step r e in
      let '(r2, out2) := run r1 events' in
      (r2, out1 ++ out2)
  end.

(** What the heartbeat loop does for one entry of the registry. *)
Definition sweepEntry (o : options) (now : Z) (entry : string * connectionData)
  : list effect :=
  if idle o now entry.2 then
    [LogIdle entry.1; WsClose (ws entry.2) 1000 "Timeout"]
  else [WsPing (ws entry.2)].

(** The representation invariant of the registry: no key twice, and no more
    entries than the configured maximum. *)
Definition wellFormed (r : relay) : Prop :=
  NoDup (connections r).*1
  ∧ (map_size (connections r) ≤ maxConnections (opts r))%nat.

(** Sample data: a relay for two connections, both slots taken, the first
    connection active at 90 s and the second silent since 2 s. *)
Definition sampleOptions : options :=
  {| timeout := 60000; heartbeatInterval := 30000; maxConnections := 2 |}.

Definition sampleEvents : list event :=
  [ Upgrade 1%nat "10.0.0.1" "ws-1000-a" 1000 1000;
    Upgrade 2%nat "10.0.0.2" "ws-2000-b" 2000 2000;
    Message "ws-1000-a" 5 OPEN 90000 90000 ].

Definition sampleRelay : relay := (run (mkRelay sampleOptions []) sampleEvents).1.

(** The sockets pinged, and the sockets closed with their code and reason,
    in a trace. *)
Definition pinged (out : list effect) : list socket :=
  omap (λ e, match e with WsPing w => Some w | _ => None end) out.

Definition closed (out : list effect) : list (socket * Z * string) :=
  omap (λ e, match e with
             | WsClose w code reason => Some (w, code, reason)
             | _ => None
             end) out.

(** The reading of "eviction completes before any liveness probe is sent":
    in the trace of one sweep no timeout close comes after a ping. *)
Fixpoint evictionsBeforeProbes (out : list effect) : bool :=
  match out with
  | [] => true
  | WsPing _ :: out' =>
      forallb (λ e, match e with WsClose _ _ _ => false | _ => true end) out'
      && evictionsBeforeProbes out'
  | _ :: out' => evictionsBeforeProbes out'
  end.

End Relay.

(** ** The Express entry point — the [/api/*] handlers *)
Module Dispatcher.

#[local] Unset Elimination Schemes.
Inductive json :=
| JNull
| JBool (b : bool)
| JNumber (z : Z)
| JString (s : string)
| JArray (items : list json)
| JObject (fields : list (string * json)).
#[local] Set Elimination Schemes.

(** [response] of a fulfilled axios call. *)
Record axiosResponse := mkResponse {
  status : Z;
  data : json
}.

(** The error of a rejected axios call: [response] is set when the upstream
    answered, and missing for a network failure. *)
Record axiosError := mkError {
  message : string;
  response : option axiosResponse
}.

(** The parts of the Express request the handlers read. *)
Record request := mkRequest {
  path : string;                       (* [req.params[0]] *)
  query : list (string * string);
  headers : gmap string string;
  ip : string;
  originalUrl : string;
  body : json
}.

(** What the handler sends: [res.status(code).json(payload)]. *)
Record reply := mkReply {
  code : Z;
  payload : json
}.

(** [obj.field] on a JSON object. *)
Definition field (k : string) (j : json) : option json :=
  match j with
  | JObject fields => Js.map_get k fields
  | _ => None
  end.

(** The error reply in the words of the specification: the status of the
    upstream when the failure carries one, 500 otherwise, and a body with the
    fields [error], [message] and [timestamp]. *)
Definition surfaces (error : axiosError) (timestamp : string) (r : reply) : Prop :=
  (∀ resp, response error = Some resp → status resp ≠ 0 → code r = status resp)
  ∧ (response error = None → code r = 500)
  ∧ field "error" (payload r) = Some (JString "Proxy request failed")
  ∧ field "message" (payload r) = Some (JString (message error))
  ∧ field "timestamp" (payload r) = Some (JString timestamp).

Section Handlers.
Variable TARGET_URL : string.
(** The upstream calls and [URLSearchParams] belong to the libraries. *)
Variable axios_get : string → gmap string string → axiosResponse + axiosError.
Variable axios_post :
  string → json → gmap string string → axiosResponse + axiosError.
Variable URLSearchParams_toString : list (string * string) → string.

(** The headers both handlers send upstream: the request's own, with the two
    forwarding headers written over them. *)
Definition forwardedHeaders (req : request) : gmap string string :=
  <["X-Original-URL" := originalUrl req]>
    (<["X-Forwarded-For" := ip req]> (headers req)).

(** [error.response?.status || 500] *)
Definition errorStatus (error : axiosError) : Z :=
  match response error with
  | Some r => if bool_decide (status r = 0) then 500 else status r
  | None => 500
  end.

(** The [catch] block both handlers share; [timestamp] is
    [new Date().toISOString()]. *)
Definition proxyError (error : axiosError) (timestamp : string) : reply :=
  {| code := errorStatus error;
     payload := JObject [("error", JString "Proxy request failed");
                         ("message", JString (message error));
                         ("timestamp", JString timestamp)] |}.

(** The address the GET handler asks for: [`${url}${queryString}`]. *)
Definition upstreamGetUrl (req : request) : string :=
  let url := TARGET_URL +:+ "/" +:+ path req in
  let queryString :=
    match query req with
    | [] => ""
    | _ => "?" +:+ URLSearchParams_toString (query req)
    end in
  url +:+ queryString.

(** [app.get('/api/*', ...)] *)
Definition apiGet (req : request) (timestamp : string) : reply :=
  match axios_get (upstreamGetUrl req) (forwardedHeaders req) with
  | inl resp => {| code := status resp; payload := data resp |}
  | inr error => proxyError error timestamp
  end.

(** [app.post('/api/*', ...)] *)
Definition apiPost (req : request) (timestamp : string) : reply :=
  let url := TARGET_URL +:+ "/" +:+ path req in
  match axios_post url (body req) (forwardedHeaders req) with
  | inl resp => {| code := status resp; payload := data resp |}
  | inr error => proxyError error timestamp
  end.

End Handlers.
End Dispatcher.

(** ** More built-ins: substring search and [String.prototype.replace] *)
Module Text.
Import Js.

(** The text before and after the first occurrence of [pat] in [s]. *)
Fixpoint splitAtFirst (pat s : string) {struct s} : option (string * string) :=
  match dropPrefix pat s with
  | Some rest => Some (EmptyString, rest)
  | None =>
      match s with
      | EmptyString => None
      | String a s' =>
          match splitAtFirst pat s' with
          | Some (before, after) => Some (String a before, after)
          | None => None
          end
      end
  end.

(** [s.includes(pat)] *)
Definition includes (s pat : string) : bool :=
  bool_decide (is_Some (splitAtFirst pat s)).

(** The expansion of a replacement string for a string pattern (no capture
    groups): [$$] is a dollar, [$&] the match, [$`] the text before it, [$']
    the text after it; every other dollar stands for itself. *)
Fixpoint getSubstitution (matched before after template : string) : string :=
  match template with
  | EmptyString => EmptyString
  | String a rest =>
      if decide (a = "$"%char) then
        match rest with
        | String c rest' =>
            if decide (c = "$"%char) then
              String "$" (getSubstitution matched before after rest')
            else if decide (c = "&"%char) then
              matched +:+ getSubstitution matched before after rest'
            else if decide (c = "`"%char) then
              before +:+ getSubstitution matched before after rest'
            else if decide (c = "'"%char) then
              after +:+ getSubstitution matched before after rest'
            else String "$" (getSubstitution matched before after rest)
        | EmptyString => String "$" EmptyString
        end
      else String a (getSubstitution matched before after rest)
  end.

(** [s.replace(pat, template)] for a string [pat]: the first occurrence
    only. *)
Definition replace (s pat template : string) : string :=
  match splitAtFirst pat s with
  | Some (before, after) =>
      before +:+ getSubstitution pat before after template +:+ after
  | None => s
  end.

End Text.

(** ** src/http-rewriter.js — [rewriteCss] *)
Module Css.
Import Js.

Definition doubleQuote : ascii := ascii_of_nat 34.

Definition isQuote (a : ascii) : bool :=
  bool_decide (a = "'"%char) || bool_decide (a = doubleQuote).

(** The characters the value class of the pattern excludes: the closing
    parenthesis and the two quotes. *)
Definition isDelimiter (a : ascii) : bool :=
  bool_decide (a = ")"%char) || isQuote a.

(** [url\(] under the [i] flag: the three letters in either case. *)
Definition dropUrlParen (s : string) : option string :=
  match s with
  | String a (String b (String c (String d rest))) =>
      if bool_decide (lowerASCII a = "u"%char)
         && bool_decide (lowerASCII b = "r"%char)
         && bool_decide (lowerASCII c = "l"%char)
         && bool_decide (d = "("%char)
      then Some rest else None
  | _ => None
  end.

(** The optional quote of the pattern: one quote is taken when there is
    one. *)
Definition dropQuote (s : string) : string :=
  match s with
  | String a rest => if isQuote a then rest else s
  | EmptyString => s
  end.

(** The captured group, greedy: the longest run without a delimiter, and
    the rest. *)
Fixpoint spanValue (s : string) : string * string :=
  match s with
  | EmptyString => (EmptyString, EmptyString)
  | String a rest =>
      if isDelimiter a then (EmptyString, s)
      else let '(run, rest') := spanValue rest in (String a run, rest')
  end.

(** A match of [urlPattern] at the start of [s] (the text [url] and an
    opening parenthesis, an optional quote, one or more characters that are
    no delimiter, an optional quote, a closing parenthesis): the captured
    value and the text after the match.  Giving back a character
    never helps this pattern: a shorter run is followed by a character that
    is neither a quote nor [)], and an opening quote that is not taken
    cannot start the run. *)
Definition matchUrl (s : string) : option (string * string) :=
  match dropUrlParen s with
  | None => None
  | Some s1 =>
      let '(captured, s2) := spanValue (dropQuote s1) in
      if bool_decide (captured = EmptyString) then None
      else
        match dropQuote s2 with
        | String a rest =>
            if bool_decide (a = ")"%char) then Some (captured, rest) else None
        | EmptyString => None
        end
  end.

Section Rewrite.
Variable newURL : string → option Rewriter.URL.
Variable newURLrel : string → string → option Rewriter.URL.

(** [css.replace(urlPattern, callback)] under the [g] flag, from the left:
    a match is replaced by [url('<rewritten>')] and the scan goes on behind
    it; where nothing matches one character is kept.  Every turn consumes a
    character, so [fuel] never runs out when it starts at the length of the
    text.  [None] when [rewriteUrl] throws. *)
Fixpoint replaceUrls (fuel : nat) (proxyBaseUrl targetUrl s : string)
  : option string :=
  match fuel with
  | O => Some s
  | S fuel' =>
      match s with
      | EmptyString => Some EmptyString
      | String a s' =>
          match matchUrl s with
          | Some (captured, rest) =>
              rewritten ← Rewriter.rewriteUrl newURL newURLrel captured
                             proxyBaseUrl targetUrl;
              tail ← replaceUrls fuel' proxyBaseUrl targetUrl rest;
              Some ("url('" +:+ rewritten +:+ "')" +:+ tail)
          | None =>
              tail ← replaceUrls fuel' proxyBaseUrl targetUrl s';
              Some (String a tail)
          end
      end
  end.

(** [rewriteCss(css, proxyBaseUrl, targetUrl)]: the handler gives the
    input back when the replacement throws. *)
Definition rewriteCss (css proxyBaseUrl targetUrl : string) : string :=
  default css (replaceUrls (String.length css) proxyBaseUrl targetUrl css).

End Rewrite.
End Css.

(** ** src/session-cookie-middleware.js — [configureSessionMiddleware] *)
Module Session.

(** The [cookie] object of the session configuration. *)
Record cookieConfig := mkCookieConfig {
  maxAge : Z;
  httpOnly : bool;
  secure : bool;
  sameSite : string
}.

(** The keys of [options] the function reads, and the keys of the
    configuration that [...options] can write over; [None] is a key that is
    not given. *)
Record options := mkOptions {
  sessionSecret : option string;
  given_resave : option bool;
  given_saveUninitialized : option bool;
  cookieMaxAge : option Z;
  given_httpOnly : option bool;
  given_secure : option bool;
  given_sameSite : option string;
  given_secret : option string;
  given_cookie : option cookieConfig;
  given_name : option string
}.

(** [process.env] *)
Record environment := mkEnvironment {
  SESSION_SECRET : option string;
  NODE_ENV : option string
}.

(** [sessionConfig], as handed to [express-session]. *)
Record sessionConfig := mkSessionConfig {
  secret : string;
  resave : bool;
  saveUninitialized : bool;
  cookie : cookieConfig;
  name : string
}.

(** [a || b] where [a] is a string that may be missing: the empty string is
    falsy. *)
Definition orString (a : option string) (b : string) : string :=
  match a with
  | Some s => if bool_decide (s = "") then b else s
  | None => b
  end.

Definition orBool (a : option bool) (b : bool) : bool :=
  match a with
  | Some true => true
  | _ => b
  end.

Definition orNumber (a : option Z) (b : Z) : Z :=
  match a with
  | Some z => if bool_decide (z = 0) then b else z
  | None => b
  end.

(** The object literal of [configureSessionMiddleware]: the defaults, then
    every given key of [options] written over the key of the same name. *)
Definition configureSessionMiddleware (o : options) (env : environment)
  : sessionConfig :=
  {| secret :=
       default
         (orString (sessionSecret o)
            (orString (SESSION_SECRET env) "geforcenow-proxy-secret"))
         (given_secret o);
     resave := default (orBool (given_resave o) false) (given_resave o);
     saveUninitialized :=
       default (orBool (given_saveUninitialized o) true)
         (given_saveUninitialized o);
     cookie :=
       default
         {| maxAge := orNumber (cookieMaxAge o) (24 * 60 * 60 * 1000);
            httpOnly := orBool (given_httpOnly o) true;
            secure := orBool (given_secure o)
                        (bool_decide (NODE_ENV env = Some "production"));
            sameSite := orString (given_sameSite o) "lax" |}
         (given_cookie o);
     name := default "geforcenow-session" (given_name o) |}.

End Session.

(** ** src/session-cookie-middleware.js — [AuthenticationStateMiddleware] *)
Module Auth.

(** A property of an object: missing ([undefined] when read), [null], or a
    value. *)
Inductive slot (A : Type) :=
| Missing
| Null
| Has (a : A).
Arguments Missing {A}.
Arguments Null {A}.
Arguments Has {A} a.

Section Tracker.
(** The user objects the login code hands in. *)
Variable User : Type.

(** One entry of [this.states]. *)
Record authState := mkAuthState {
  isAuthenticated : bool;
  user : slot User;
  loginTime : slot Z;
  lastActivity : slot Z
}.

(** The first lines of the middleware, for the session of the request:
    a new session gets a fresh state, then [lastActivity] is written. *)
Definition middleware (sessionID : string) (now : Z)
    (states : gmap string authState) : gmap string authState :=
  let states1 :=
    match states !! sessionID with
    | Some _ => states
    | None =>
        <[sessionID := {| isAuthenticated := false; user := Null;
                          loginTime := Null; lastActivity := Has now |}]> states
    end in
  match states1 !! sessionID with
  | Some authState =>
      <[sessionID := {| isAuthenticated := isAuthenticated authState;
                        user := user authState;
                        loginTime := loginTime authState;
                        lastActivity := Has now |}]> states1
  | None => states1
  end.

(** [setAuthState(sessionId, user)] *)
Definition setAuthState (sessionId : string) (u : User) (now : Z)
    (states : gmap string authState) : gmap string authState :=
  let state :=
    default {| isAuthenticated := false; user := Missing;
               loginTime := Missing; lastActivity := Missing |}
            (states !! sessionId) in
  <[sessionId := {| isAuthenticated := true; user := Has u;
                    loginTime := Has now;
                    lastActivity := lastActivity state |}]> states.

(** [getAuthState(sessionId)] *)
Definition getAuthState (sessionId : string) (states : gmap string authState)
  : authState :=
  default {| isAuthenticated := false; user := Null;
             loginTime := Missing; lastActivity := Missing |}
          (states !! sessionId).

(** [clearAuthState(sessionId)] *)
Definition clearAuthState (sessionId : string)
    (states : gmap string authState) : gmap string authState :=
  delete sessionId states.

(** [getStats()] *)
Record stats := mkStats {
  activeSessions : nat;
  authenticatedUsers : nat
}.

Definition getStats (states : gmap string authState) : stats :=
  {| activeSessions := size states;
     authenticatedUsers :=
       length (filter (λ s, isAuthenticated s = true)
                      ((map_to_list states).*2)) |}.

End Tracker.
End Auth.

(** ** The service worker injector *)
Module Injector.
Import Js.

Definition LF : string := String (ascii_of_nat 10) EmptyString.

(** [generateServiceWorkerInjectCode(proxyBaseUrl)]: the template literal,
    line by line. *)
Definition generateServiceWorkerInjectCode (proxyBaseUrl : string) : string :=
  LF +:+ "<!-- Injected Service Worker Registration -->" +:+ LF
  +:+ "<script>" +:+ LF
  +:+ "(function() {" +:+ LF
  +:+ "  if ('serviceWorker' in navigator) {" +:+ LF
  +:+ "    navigator.serviceWorker.register('" +:+ proxyBaseUrl
  +:+ "/sw.js', {" +:+ LF
  +:+ "      scope: '/'" +:+ LF
  +:+ "    }).then(registration => {" +:+ LF
  +:+ "      console.log('[GeForce NOW Proxy] Service Worker registered successfully:', registration);" +:+ LF
  +:+ "    }).catch(error => {" +:+ LF
  +:+ "      console.warn('[GeForce NOW Proxy] Service Worker registration failed:', error);" +:+ LF
  +:+ "    });" +:+ LF
  +:+ "  }" +:+ LF
  +:+ "})();" +:+ LF
  +:+ "</script>" +:+ LF.

(** [injectServiceWorker(html, proxyBaseUrl)]; nothing in the [try] block
    throws on strings. *)
Definition injectServiceWorker (html proxyBaseUrl : string) : string :=
  let injectCode := generateServiceWorkerInjectCode proxyBaseUrl in
  if Text.includes html "</body>" then
    Text.replace html "</body>" (injectCode +:+ "</body>")
  else html +:+ injectCode.

End Injector.

(* ===================================================================== *)
(** * Part II — lemmas and theorems                                       *)
(* ===================================================================== *)

(** ** Strings *)

Lemma startsWith_cons (a b : ascii) (s p : string) :
  Js.startsWith (String a s) (String b p)
  = if decide (b = a) then Js.startsWith s p else false.
Proof.
  unfold Js.startsWith. change (String.prefix (String b p) (String a s))
    with (if ascii_dec b a then String.prefix p s else false).
  destruct (ascii_dec b a), (decide (b = a)); congruence.
Qed.

Lemma startsWith_nil (s : string) : Js.startsWith s "" = true.
Proof. by destruct s. Qed.

Lemma startsWith_app (p s : string) : Js.startsWith (p +:+ s) p = true.
Proof.
  induction p as [|a p IH].
  - apply startsWith_nil.
  - change (String a p +:+ s) with (String a (p +:+ s)).
    rewrite startsWith_cons, IH. by rewrite decide_True.
Qed.

Lemma startsWith_hash (url : string) :
  Js.startsWith url "#" = true → ∃ rest, url = String "#" rest.
Proof.
  destruct url as [|a rest]; [done |].
  rewrite startsWith_cons. case_decide; [subst; eauto | done].
Qed.

(** ** The URL resolver *)

Section ResolverFacts.
Import Js Rewriter.
Variable newURL : string → option URL.
Variable newURLrel : string → string → option URL.
#[local] Abbreviation resolve := (rewriteUrl newURL newURLrel).

(** A proxy link is returned as it is. *)
Lemma rewriteUrl_proxyLink (proxyBaseUrl targetUrl absolute : string) :
  resolve (proxyLink proxyBaseUrl absolute) proxyBaseUrl targetUrl
  = Some (proxyLink proxyBaseUrl absolute).
Proof.
  unfold rewriteUrl, proxyLink. rewrite startsWith_app.
  by repeat case_match.
Qed.

(** So is every string that starts with the proxy base. *)
Lemma rewriteUrl_proxied (url proxyBaseUrl targetUrl : string) :
  startsWith url proxyBaseUrl = true →
  resolve url proxyBaseUrl targetUrl = Some url.
Proof.
  intros Hpre. unfold rewriteUrl. rewrite Hpre. by repeat case_match.
Qed.

(** Whatever [rewriteUrl] returns is a fixed point of it. *)
Lemma rewriteUrl_fixed (url proxyBaseUrl targetUrl once : string) :
  resolve url proxyBaseUrl targetUrl = Some once →
  resolve once proxyBaseUrl targetUrl = Some once.
Proof.
  intros Hres. pose proof Hres as Hcopy. unfold rewriteUrl in Hres.
  repeat case_match; simplify_option_eq;
    first [ exact Hcopy | apply rewriteUrl_proxyLink ].
Qed.

(** C3: the resolver is idempotent.  Applying it to its own result gives
    that result again (and a call that throws, throws again), for every
    input string and every proxy base and target; in particular a proxy link
    is returned as it is, not encoded a second time. *)
Theorem rewriteUrl_idempotent (url proxyBaseUrl targetUrl : string) :
  (resolve url proxyBaseUrl targetUrl
     ≫= λ once, resolve once proxyBaseUrl targetUrl)
  = resolve url proxyBaseUrl targetUrl
  ∧ ∀ absolute,
      resolve (proxyLink proxyBaseUrl absolute) proxyBaseUrl targetUrl
      = Some (proxyLink proxyBaseUrl absolute).
Proof.
  split; [| intros; apply rewriteUrl_proxyLink].
  destruct (resolve url proxyBaseUrl targetUrl) as [once|] eqn:Hres; [| done].
  simpl. eapply rewriteUrl_fixed, Hres.
Qed.

(** C7: a fragment reference (a string that starts with [#]) and a
    [javascript:] URI are returned unchanged, whatever the proxy base and the
    target are. *)
Theorem rewriteUrl_fragment_javascript (url proxyBaseUrl targetUrl : string) :
  startsWith url "#" = true ∨ startsWith url "javascript:" = true →
  resolve url proxyBaseUrl targetUrl = Some url.
Proof.
  intros [Hhash | Hjs]; unfold rewriteUrl.
  - rewrite Hhash. apply startsWith_hash in Hhash as [rest ->].
    rewrite !(startsWith_cons "#").
    repeat (rewrite decide_False by done). simpl.
    by repeat case_match.
  - rewrite Hjs, orb_true_r. done.
Qed.

(** With a target that parses, the resolver returns for every input that is
    not document-relative, and for a document-relative one when the runtime
    resolves it. *)
Lemma rewriteUrl_returns (url proxyBaseUrl targetUrl : string) (base : URL) :
  newURL targetUrl = Some base →
  is_Some (newURLrel url targetUrl) →
  is_Some (resolve url proxyBaseUrl targetUrl).
Proof.
  intros Hbase [absolute Habs]. unfold rewriteUrl.
  rewrite Hbase, Habs. simpl. by repeat case_match.
Qed.

End ResolverFacts.

(** A target origin for the examples: what [new URL] gives for
    [https://api.example.com]. *)
Example rewriteUrl_login :
  Rewriter.rewriteUrl
    (λ _, Some (Rewriter.mkURL "https:" "api.example.com" "https://api.example.com/"))
    (λ _ _, None)
    "/login" "http://localhost:3000" "https://api.example.com"
  = Some "http://localhost:3000/proxy?url=https%3A%2F%2Fapi.example.com%2Flogin".
Proof. reflexivity. Qed.

Example rewriteUrl_protocol_relative :
  Rewriter.rewriteUrl (λ _, None) (λ _ _, None)
    "//cdn.example.com/a.js" "http://localhost:3000" "https://api.example.com"
  = Some "http://localhost:3000/proxy?url=https%3A%2F%2Fcdn.example.com%2Fa.js".
Proof. reflexivity. Qed.

Lemma rewriteUrl_fragment_javascript_witness :
  Rewriter.rewriteUrl (λ _, None) (λ _ _, None)
    "#section-2" "http://localhost:3000" "https://api.example.com"
  = Some "#section-2"
  ∧ Rewriter.rewriteUrl (λ _, None) (λ _ _, None)
      "javascript:void(0)" "http://localhost:3000" "https://api.example.com"
    = Some "javascript:void(0)".
Proof.
  split.
  - apply (rewriteUrl_fragment_javascript (λ _, None) (λ _ _, None)).
    left. reflexivity.
  - apply (rewriteUrl_fragment_javascript (λ _, None) (λ _ _, None)).
    right. reflexivity.
Defined.

(** ** The cookie relay *)

Lemma split_without (c : ascii) (s : string) :
  c ∉ Js.chars s → Js.split c s = [s].
Proof.
  induction s as [|a s IH]; simpl; [done |].
  intros Hnot. apply not_elem_of_cons in Hnot as [Hne Hnot].
  rewrite decide_False by congruence. by rewrite IH.
Qed.

Lemma split_at_first (c : ascii) (s rest : string) :
  c ∉ Js.chars s →
  Js.split c (s +:+ String c rest) = s :: Js.split c rest.
Proof.
  induction s as [|a s IH]; simpl.
  - intros _. by rewrite decide_True.
  - intros Hnot. apply not_elem_of_cons in Hnot as [Hne Hnot].
    rewrite decide_False by congruence. by rewrite IH.
Qed.

Lemma object_assign_singleton (jar : gmap string Js.value) (k : string)
    (v : Js.value) :
  k ≠ "__proto__" → Js.object_assign jar {[k := v]} = <[k := v]> jar.
Proof.
  intros Hk. unfold Js.object_assign.
  rewrite delete_singleton_ne by done. by rewrite insert_union_singleton_l.
Qed.

Lemma object_assign_proto (jar : gmap string Js.value) (v : Js.value) :
  Js.object_assign jar {["__proto__" := v]} = jar.
Proof.
  unfold Js.object_assign. rewrite delete_singleton_eq. apply (left_id ∅ _).
Qed.

Section CookieFacts.
Import Js Cookies.
Variable toLowerCase : string → string.
#[local] Abbreviation parse := (parseCookieString toLowerCase).
#[local] Abbreviation relay := (relayCookie toLowerCase).

(** After [storeCookies] the jar of the session is the old jar (or an empty
    one) with the cookies assigned into it. *)
Lemma getCookies_storeCookies (sessionId : string)
    (cookies : gmap string Js.value)
    (cookieStore : gmap string (gmap string Js.value)) :
  getCookies sessionId (storeCookies sessionId cookies cookieStore)
  = object_assign (getCookies sessionId cookieStore) cookies.
Proof.
  unfold getCookies, storeCookies.
  destruct (cookieStore !! sessionId) as [jar|] eqn:Hjar.
  - rewrite Hjar. by rewrite lookup_insert_eq.
  - rewrite lookup_insert_eq. by rewrite lookup_insert_eq.
Qed.

(** The jars of the other sessions are not touched. *)
Lemma getCookies_storeCookies_other (sessionId other : string)
    (cookies : gmap string Js.value)
    (cookieStore : gmap string (gmap string Js.value)) :
  other ≠ sessionId →
  getCookies other (storeCookies sessionId cookies cookieStore)
  = getCookies other cookieStore.
Proof.
  intros Hne. unfold getCookies, storeCookies.
  destruct (cookieStore !! sessionId) as [jar|] eqn:Hjar.
  - rewrite Hjar. by rewrite lookup_insert_ne.
  - rewrite lookup_insert_eq. by rewrite !lookup_insert_ne.
Qed.

(** The overrides touch the attributes only. *)
Lemma applyOverrides_name_value (o : options) (parsed : parsedCookie) :
  name (applyOverrides o parsed) = name parsed
  ∧ value (applyOverrides o parsed) = value parsed.
Proof. done. Qed.

(** The two tests of [relayCookie] are the policy of the specification. *)
Lemma relayCookie_policy (o : options) (sessionId cookieString : string)
    (cookieStore : gmap string (gmap string Js.value)) :
  relay o sessionId cookieString cookieStore
  = if policyAdmits o (name (parse cookieString)) then
      storeCookies sessionId
        {[ name (parse cookieString) := value (parse cookieString) ]} cookieStore
    else cookieStore.
Proof.
  unfold relayCookie, policyAdmits.
  destruct (includes (cookieBlacklist o) _);
    destruct (cookieWhitelist o) as [|allowed rest]; [done | | done |].
  - rewrite andb_false_r. by case_match.
  - rewrite bool_decide_true by (simpl; lia).
    rewrite bool_decide_false by done.
    by destruct (includes (allowed :: rest) _).
Qed.

(** For every name but [__proto__]: an admitted cookie is in the jar after
    [relayCookie], under its name and with its parsed value; a cookie that is
    not admitted leaves the store as it was. *)
Lemma relayCookie_admitted_iff (o : options) (sessionId cookieString : string)
    (cookieStore : gmap string (gmap string Js.value)) :
  name (parse cookieString) ≠ "__proto__" →
  (policyAdmits o (name (parse cookieString)) = true →
   getCookies sessionId (relay o sessionId cookieString cookieStore)
     !! name (parse cookieString) = Some (value (parse cookieString)))
  ∧ (policyAdmits o (name (parse cookieString)) = false →
     relay o sessionId cookieString cookieStore = cookieStore).
Proof.
  intros Hname. rewrite relayCookie_policy. split; intros ->; [| done].
  rewrite getCookies_storeCookies, object_assign_singleton by done.
  apply lookup_insert_eq.
Qed.

(** A name on the deny-list is never admitted, allow-listed or not. *)
Lemma policyAdmits_denied (o : options) (cookieName : string) :
  cookieName ∈ cookieBlacklist o → policyAdmits o cookieName = false.
Proof.
  intros Hin. unfold policyAdmits, includes.
  rewrite (bool_decide_true _ Hin). apply andb_false_r.
Qed.

(** The override flags have no influence on what is stored. *)
Lemma relayCookie_overrides_irrelevant (o : options)
    (sessionId cookieString : string)
    (cookieStore : gmap string (gmap string Js.value)) :
  relay o sessionId cookieString cookieStore
  = relay {| stripSecure := false; stripHttpOnly := false;
             cookieWhitelist := cookieWhitelist o;
             cookieBlacklist := cookieBlacklist o |}
      sessionId cookieString cookieStore.
Proof. by rewrite !relayCookie_policy. Qed.

(** C9: when the name-value part of a Set-Cookie string reads
    [n=v=rest], with no [=] in [n] or [v], [parseCookieString] gives the name
    [n] and the value [v] (the text between the first and the second [=]);
    what follows the second [=] is lost, and an admitted cookie is stored by
    [relayCookie] with that truncated value. *)
Theorem parseCookieString_truncates (cookieString n v rest : string) :
  default "" ((trim <$> split ";" cookieString) !! 0%nat)
    = n +:+ "=" +:+ v +:+ "=" +:+ rest →
  "="%char ∉ chars n →
  "="%char ∉ chars v →
  name (parse cookieString) = n
  ∧ value (parse cookieString) = VString v
  ∧ ∀ o sessionId cookieStore,
      policyAdmits o n = true →
      relay o sessionId cookieString cookieStore
      = storeCookies sessionId {[ n := VString v ]} cookieStore.
Proof.
  intros Hnv Hn Hv.
  assert (split "=" (n +:+ "=" +:+ v +:+ "=" +:+ rest)
          = n :: v :: split "=" rest) as Hsplit.
  { change (n +:+ "=" +:+ v +:+ "=" +:+ rest)
      with (n +:+ String "=" (v +:+ String "=" rest)).
    by rewrite !split_at_first. }
  assert (name (parse cookieString) = n
          ∧ value (parse cookieString) = VString v) as [Hname Hvalue].
  { unfold parseCookieString; simpl. by rewrite Hnv, Hsplit. }
  split_and!; [done | done |].
  intros o sessionId cookieStore Hadm.
  by rewrite relayCookie_policy, Hname, Hvalue, Hadm.
Qed.

End CookieFacts.

Lemma parseCookieString_truncates_witness :
  Cookies.name (Cookies.parseCookieString Js.toLowerCaseASCII "token=abc=def; Path=/")
    = "token"
  ∧ Cookies.value (Cookies.parseCookieString Js.toLowerCaseASCII "token=abc=def; Path=/")
    = Js.VString "abc"
  ∧ Cookies.getCookies "s1"
      (Cookies.relayCookie Js.toLowerCaseASCII
         (Cookies.constructor (Cookies.mkUserOptions None None None None))
         "s1" "token=abc=def; Path=/" Cookies.emptyStore)
    = {[ "token" := Js.VString "abc" ]}.
Proof.
  destruct (parseCookieString_truncates Js.toLowerCaseASCII
              "token=abc=def; Path=/" "token" "abc" "def")
    as (Hname & Hvalue & Hrelay).
  - reflexivity.
  - apply (bool_decide_unpack _). reflexivity.
  - apply (bool_decide_unpack _). reflexivity.
  - split_and!; [exact Hname | exact Hvalue |].
    rewrite Hrelay by reflexivity.
    rewrite getCookies_storeCookies, object_assign_singleton by done.
    reflexivity.
Defined.

(** ** The insertion-ordered map *)

Section OrderedMapFacts.
Import Js.
Context {V : Type}.
Implicit Types (k : string) (v : V) (m : list (string * V)).

Lemma map_get_set_eq k v m : map_get k (map_set k v m) = Some v.
Proof.
  induction m as [|[k' v'] m IH]; simpl.
  - by rewrite decide_True.
  - case_decide; simpl; [by rewrite decide_True | by rewrite decide_False].
Qed.

Lemma map_get_set_ne k k' v m :
  k ≠ k' → map_get k' (map_set k v m) = map_get k' m.
Proof.
  intros Hne. induction m as [|[k0 v0] m IH]; simpl.
  - by rewrite decide_False.
  - destruct (decide (k = k0)) as [<- | ?]; simpl.
    + by rewrite !decide_False.
    + by rewrite IH.
Qed.

Lemma map_delete_filter k m :
  map_delete k m = filter (λ kv, kv.1 ≠ k) m.
Proof.
  induction m as [|[k' v'] m IH]; simpl; [done |].
  rewrite filter_cons. simpl.
  destruct (decide (k = k')) as [<- | ?].
  - by rewrite decide_False by (intros ?; done).
  - rewrite decide_True by done. by rewrite IH.
Qed.

Lemma map_get_None k m : map_get k m = None ↔ k ∉ m.*1.
Proof.
  induction m as [|[k' v'] m IH]; simpl.
  - split; [intros _; apply not_elem_of_nil | done].
  - rewrite not_elem_of_cons. case_decide; [naive_solver | ].
    rewrite IH. naive_solver.
Qed.

Lemma map_get_delete_eq k m : map_get k (map_delete k m) = None.
Proof.
  apply map_get_None. rewrite map_delete_filter.
  intros ([k' v'] & -> & Hin)%list_elem_of_fmap.
  apply list_elem_of_filter in Hin as [Hne _]. done.
Qed.

Lemma map_get_delete_ne k k' m :
  k ≠ k' → map_get k' (map_delete k m) = map_get k' m.
Proof.
  intros Hne. induction m as [|[k0 v0] m IH]; simpl; [done |].
  destruct (decide (k = k0)) as [<- | ?]; simpl.
  - by rewrite decide_False.
  - by rewrite IH.
Qed.

Lemma map_get_elem_of k v m :
  NoDup m.*1 → map_get k m = Some v ↔ (k, v) ∈ m.
Proof.
  induction m as [|[k' v'] m IH]; simpl.
  - intros _. split; [done | intros []%elem_of_nil].
  - rewrite NoDup_cons. intros [Hfresh Hnodup].
    rewrite elem_of_cons. case_decide as Hk.
    + subst k'. split; [naive_solver |].
      intros [? | Hin]; [naive_solver |].
      destruct Hfresh. apply list_elem_of_fmap. by exists (k, v).
    + rewrite IH by done. naive_solver.
Qed.

Lemma map_set_size k v m :
  map_size (map_set k v m)
  = if decide (is_Some (map_get k m)) then map_size m else S (map_size m).
Proof.
  unfold map_size. induction m as [|[k' v'] m IH]; simpl.
  - destruct (decide (is_Some (@None V))) as [[? ?] | _]; done.
  - destruct (decide (k = k')) as [<- | ?]; simpl.
    + destruct (decide (is_Some (Some v'))) as [_ | []]; eauto.
    + rewrite IH. by destruct (decide (is_Some (map_get k m))).
Qed.

Lemma map_set_keys k v m :
  NoDup m.*1 → NoDup (map_set k v m).*1.
Proof.
  induction m as [|[k' v'] m IH]; simpl.
  - intros _. apply NoDup_singleton.
  - rewrite NoDup_cons. intros [Hfresh Hnodup].
    destruct (decide (k = k')) as [<- | Hne]; simpl.
    + by apply NoDup_cons.
    + apply NoDup_cons. split; [| by apply IH].
      intros Hin. apply Hfresh.
      destruct (map_get k' m) as [v0|] eqn:Hget.
      * assert (k' ∈ m.*1); [| done].
        apply dec_stable. intros Hnot%map_get_None. congruence.
      * apply map_get_None in Hin; [done |].
        by rewrite map_get_set_ne.
Qed.

Lemma map_delete_keys k m :
  NoDup m.*1 → NoDup (map_delete k m).*1.
Proof.
  intros Hnodup. rewrite map_delete_filter.
  eapply sublist_NoDup; [exact Hnodup |].
  apply fmap_sublist, sublist_filter.
Qed.

Lemma map_delete_size_le k m : (map_size (map_delete k m) ≤ map_size m)%nat.
Proof. rewrite map_delete_filter. apply length_filter. Qed.

Lemma map_delete_size k m :
  NoDup m.*1 → is_Some (map_get k m) →
  S (map_size (map_delete k m)) = map_size m.
Proof.
  unfold map_size. induction m as [|[k' v'] m IH]; simpl.
  - by intros _ [].
  - rewrite NoDup_cons. intros [Hfresh Hnodup] Hsome.
    destruct (decide (k = k')) as [<- | ?].
    + f_equal. rewrite map_delete_filter.
      assert (Forall (λ kv : string * V, kv.1 ≠ k) m) as Hall.
      { apply Forall_forall. intros [k0 v0] Hin Heq. simpl in Heq. subst k0.
        apply Hfresh, list_elem_of_fmap. by exists (k, v0). }
      clear -Hall. induction Hall as [|kv m Hkv _ IHall]; [done |].
      rewrite filter_cons_True by done. simpl. by rewrite IHall.
    + simpl. f_equal. by apply IH.
Qed.

End OrderedMapFacts.

(** ** The connection relay *)

Section RelayFacts.
Import Js Relay.
Implicit Types (r : relay) (o : options) (e : event).

(** *** The heartbeat sweep *)

Lemma sweep_kept o now entries :
  (sweep o now entries).1 = filter (λ kv, idle o now kv.2 = false) entries.
Proof.
  induction entries as [|[cid conn] rest IH]; simpl; [done |].
  destruct (sweep o now rest) as [kept out]. simpl in IH. subst kept.
  destruct (idle o now conn) eqn:Hidle; simpl.
  - rewrite filter_cons_False; [done | simpl; congruence].
  - by rewrite filter_cons_True.
Qed.

Lemma sweep_trace o now entries :
  (sweep o now entries).2 = entries ≫= sweepEntry o now.
Proof.
  induction entries as [|[cid conn] rest IH]; simpl; [done |].
  destruct (sweep o now rest) as [kept out]. simpl in IH. subst out.
  unfold sweepEntry. simpl. by destruct (idle o now conn).
Qed.

Lemma sweep_pinged o now entries :
  pinged (sweep o now entries).2 = ws <$> map_values (sweep o now entries).1.
Proof.
  induction entries as [|[cid conn] rest IH]; simpl; [done |].
  destruct (sweep o now rest) as [kept out]. simpl in IH.
  destruct (idle o now conn); simpl; [done | by f_equal].
Qed.

Lemma sweep_closed o now entries :
  closed (sweep o now entries).2
  = (λ kv, (ws kv.2, 1000, "Timeout"))
      <$> filter (λ kv, idle o now kv.2 = true) entries.
Proof.
  induction entries as [|[cid conn] rest IH]; simpl; [done |].
  destruct (sweep o now rest) as [kept out]. simpl in IH.
  destruct (idle o now conn) eqn:Hidle; simpl.
  - rewrite filter_cons_True by done. simpl. by f_equal.
  - rewrite filter_cons_False; [done | simpl; congruence].
Qed.

Lemma heartbeat_unfold now r :
  heartbeat now r
  = (with_connections r (sweep (opts r) now (connections r)).1,
     (sweep (opts r) now (connections r)).2).
Proof. unfold heartbeat. by destruct (sweep _ _ _). Qed.

(** *** The invariant *)

Lemma step_opts r e : opts (step r e).1 = opts r.
Proof.
  destruct e; simpl; unfold handleConnection, handleMessage, handleClose,
    handlePong; rewrite ?heartbeat_unfold; repeat case_match; done.
Qed.

Lemma step_wellFormed r e : wellFormed r → wellFormed (step r e).1.
Proof.
  intros [Hnodup Hsize]. unfold wellFormed. rewrite step_opts.
  destruct e as [w clientIp cid now1 now2 | cid len state now1 now2 | cid
                 | cid message | cid now | now]; simpl.
  - unfold handleConnection. case_bool_decide as Hfull; simpl; [done |].
    split; [by apply map_set_keys |].
    rewrite map_set_size. case_decide; lia.
  - unfold handleMessage.
    destruct (map_get cid (connections r)) as [conn|] eqn:Hget; simpl; [| done].
    split; [by apply map_set_keys |].
    rewrite map_set_size, decide_True by (rewrite Hget; eauto). done.
  - unfold handleClose.
    destruct (map_get cid (connections r)) as [conn|] eqn:Hget; simpl; [| done].
    split; [by apply map_delete_keys |].
    pose proof (map_delete_size_le cid (connections r)). lia.
  - done.
  - unfold handlePong.
    destruct (map_get cid (connections r)) as [conn|] eqn:Hget; simpl; [| done].
    split; [by apply map_set_keys |].
    rewrite map_set_size, decide_True by (rewrite Hget; eauto). done.
  - rewrite heartbeat_unfold. simpl. rewrite sweep_kept. split.
    + eapply sublist_NoDup; [exact Hnodup |].
      apply fmap_sublist, sublist_filter.
    + unfold map_size in *.
      pose proof (length_filter (λ kv, idle (opts r) now kv.2 = false)
                    (connections r)). lia.
Qed.

Lemma run_opts r events : opts (run r events).1 = opts r.
Proof.
  revert r. induction events as [|e events IH]; intros r; simpl; [done |].
  pose proof (step_opts r e) as Hstep.
  destruct (step r e) as [r1 out1]. specialize (IH r1).
  destruct (run r1 events) as [r2 out2]. simpl in *. congruence.
Qed.

Lemma run_wellFormed r events : wellFormed r → wellFormed (run r events).1.
Proof.
  revert r. induction events as [|e events IH]; intros r Hwf; simpl; [done |].
  pose proof (step_wellFormed r e Hwf) as Hstep.
  destruct (step r e) as [r1 out1]. specialize (IH r1 Hstep).
  by destruct (run r1 events) as [r2 out2].
Qed.

Lemma empty_wellFormed o : wellFormed (mkRelay o []).
Proof. split; simpl; [apply NoDup_nil_2 | lia]. Qed.

(** [handleError] returns the relay it was given. *)
Lemma handleError_registry (cid message : string) r :
  (handleError cid message r).1 = r.
Proof. done. Qed.

(** [handleClose] removes the connection. *)
Lemma handleClose_removes (cid : string) r :
  map_get cid (connections (handleClose cid r).1) = None.
Proof.
  unfold handleClose.
  destruct (map_get cid (connections r)) as [conn|] eqn:Hget; simpl; [| done].
  apply map_get_delete_eq.
Qed.

End RelayFacts.

Section RelayTheorems.
Import Js Relay.

(** C1: starting from an empty registry with the maximum [maxConnections o],
    no sequence of upgrades, messages, closes, errors, pongs and heartbeat
    sweeps makes the registry larger than the maximum; an upgrade that
    arrives while the registry holds the maximum is answered with close code
    1008 and leaves the relay as it was; and once a registered connection has
    closed (which frees exactly one slot) the next upgrade is accepted and
    registered. *)
Theorem registry_within_capacity (o : options) :
  (∀ events,
     (map_size (connections (run (mkRelay o []) events).1)
      ≤ maxConnections o)%nat)
  ∧ (∀ r w clientIp cid now1 now2,
       map_size (connections r) = maxConnections (opts r) →
       handleConnection w clientIp cid now1 now2 r
       = (r, [LogNewConnection clientIp cid;
              WsClose w 1008 "Server at max capacity"]))
  ∧ (∀ events gone w clientIp cid now1 now2,
       map_has gone (connections (run (mkRelay o []) events).1) = true →
       S (map_size (connections
            (handleClose gone (run (mkRelay o []) events).1).1))
       = map_size (connections (run (mkRelay o []) events).1)
       ∧ handleConnection w clientIp cid now1 now2
           (handleClose gone (run (mkRelay o []) events).1).1
         = (with_connections (run (mkRelay o []) events).1
              (map_set cid (mkConnection cid w clientIp now1 now2 0)
                 (map_delete gone
                    (connections (run (mkRelay o []) events).1))),
            [LogNewConnection clientIp cid])
       ∧ map_get cid
           (connections
              (handleConnection w clientIp cid now1 now2
                 (handleClose gone (run (mkRelay o []) events).1).1).1)
         = Some (mkConnection cid w clientIp now1 now2 0)).
Proof.
  split_and!.
  - intros events.
    destruct (run_wellFormed _ events (empty_wellFormed o)) as [_ Hsize].
    by rewrite run_opts in Hsize.
  - intros r w clientIp cid now1 now2 Hfull. unfold handleConnection.
    rewrite bool_decide_true by lia. done.
  - intros events gone w clientIp cid now1 now2 Hhas.
    destruct (run_wellFormed _ events (empty_wellFormed o)) as [Hnodup Hsize].
    set (r := (run (mkRelay o []) events).1) in *.
    apply bool_decide_eq_true in Hhas.
    pose proof (map_delete_size gone _ Hnodup Hhas) as Hfreed.
    unfold handleClose. destruct Hhas as [conn Hget]. rewrite Hget. simpl.
    split; [done |].
    unfold handleConnection. simpl.
    rewrite bool_decide_false by lia. simpl.
    split; [done | apply map_get_set_eq].
Qed.

(** C5 fails on the code: [handleError] writes its console line and returns
    the relay unchanged, for every connection, where [handleClose] removes
    the connection; on the sample relay the first connection is registered
    before the error handler runs and still registered after it. *)
Theorem handleError_keeps_registration :
  (∀ cid message r, handleError cid message r = (r, [LogError cid message]))
  ∧ (∀ cid r, map_get cid (connections (handleClose cid r).1) = None)
  ∧ map_has "ws-1000-a" (connections sampleRelay) = true
  ∧ map_has "ws-1000-a"
      (connections (handleError "ws-1000-a" "read ECONNRESET" sampleRelay).1)
    = true
  ∧ map_has "ws-1000-a" (connections (handleClose "ws-1000-a" sampleRelay).1)
    = false.
Proof.
  split_and!.
  - intros cid message r. reflexivity.
  - apply handleClose_removes.
  - reflexivity.
  - rewrite handleError_registry. reflexivity.
  - apply bool_decide_eq_false. rewrite handleClose_removes. by intros [].
Qed.

(** C6 as stated fails: on the sample relay the sweep at 100 s pings the
    first connection before it closes the second, idle one. *)
Lemma heartbeat_probe_before_eviction :
  (heartbeat 100000 sampleRelay).2
  = [WsPing 1%nat; LogIdle "ws-2000-b"; WsClose 2%nat 1000 "Timeout"]
  ∧ evictionsBeforeProbes (heartbeat 100000 sampleRelay).2 = false.
Proof. split; reflexivity. Qed.

(** C6, amended: one sweep walks the registry once, in its order, and for
    each entry either closes it (code 1000) and removes it, when it has been
    idle longer than the timeout, or pings it.  So the registry afterwards
    holds exactly the entries that were not idle, every idle connection was
    closed, and the pings went to exactly the connections left, none of them
    to a connection evicted in this sweep. *)
Theorem heartbeat_one_pass (now : Z) (r : relay) :
  (heartbeat now r).2 = connections r ≫= sweepEntry (opts r) now
  ∧ connections (heartbeat now r).1
    = filter (λ kv, idle (opts r) now kv.2 = false) (connections r)
  ∧ closed (heartbeat now r).2
    = (λ kv, (ws kv.2, 1000, "Timeout"))
        <$> filter (λ kv, idle (opts r) now kv.2 = true) (connections r)
  ∧ pinged (heartbeat now r).2
    = ws <$> map_values (connections (heartbeat now r).1)
  ∧ (NoDup (connections r).*1 →
     ∀ cid conn,
       map_get cid (connections r) = Some conn →
       if idle (opts r) now conn then
         map_get cid (connections (heartbeat now r).1) = None
         ∧ (ws conn, 1000, "Timeout") ∈ closed (heartbeat now r).2
       else
         map_get cid (connections (heartbeat now r).1) = Some conn
         ∧ ws conn ∈ pinged (heartbeat now r).2).
Proof.
  rewrite heartbeat_unfold. simpl.
  split_and!.
  - apply sweep_trace.
  - apply sweep_kept.
  - apply sweep_closed.
  - apply sweep_pinged.
  - intros Hnodup cid conn Hget.
    rewrite sweep_pinged, sweep_closed, sweep_kept.
    set (kept := filter _ (connections r)).
    assert (NoDup kept.*1) as Hkept.
    { eapply sublist_NoDup; [exact Hnodup |].
      apply fmap_sublist, sublist_filter. }
    apply map_get_elem_of in Hget; [| done].
    destruct (idle (opts r) now conn) eqn:Hidle; split.
    + apply map_get_None. intros ([cid' conn'] & Hcid & Hin)%list_elem_of_fmap.
      simpl in Hcid. subst cid'.
      apply list_elem_of_filter in Hin as [Hfresh Hin]. simpl in Hfresh.
      apply map_get_elem_of in Hin, Hget; [| done..]. congruence.
    + apply list_elem_of_fmap. exists (cid, conn). split; [done |].
      by apply list_elem_of_filter.
    + apply map_get_elem_of; [done |]. by apply list_elem_of_filter.
    + apply list_elem_of_fmap. exists conn. split; [done |].
      apply list_elem_of_fmap. exists (cid, conn). split; [done |].
      by apply list_elem_of_filter.
Qed.

(** C10: with an empty registry [getStats] returns no connection, no
    message, the configured maximum, and minus infinity for the age of the
    oldest connection, the minimum over no creation time being plus
    infinity. *)
Theorem getStats_empty (now : Z) (o : options) :
  Math_min (createdAt <$> map_values (connections (mkRelay o []))) = PosInfinity
  ∧ getStats now (mkRelay o [])
    = {| activeConnections := 0; totalMessages := 0;
         oldestConnectionAge := NegInfinity;
         maxCapacity := maxConnections o |}
  ∧ ∀ given,
      getStats now (constructor given)
      = {| activeConnections := 0; totalMessages := 0;
           oldestConnectionAge := NegInfinity;
           maxCapacity := default 1000%nat (given_maxConnections given) |}.
Proof. split_and!; reflexivity. Qed.

End RelayTheorems.

Lemma registry_within_capacity_witness :
  Relay.handleConnection 3%nat "10.0.0.3" "ws-3000-c" 3000 3000 Relay.sampleRelay
  = (Relay.sampleRelay,
     [Relay.LogNewConnection "10.0.0.3" "ws-3000-c";
      Relay.WsClose 3%nat 1008 "Server at max capacity"])
  ∧ Js.map_get "ws-3000-c"
      (Relay.connections
         (Relay.handleConnection 3%nat "10.0.0.3" "ws-3000-c" 3000 3000
            (Relay.handleClose "ws-2000-b"
               (Relay.run (Relay.mkRelay Relay.sampleOptions [])
                  Relay.sampleEvents).1).1).1)
    = Some (Relay.mkConnection "ws-3000-c" 3%nat "10.0.0.3" 3000 3000 0).
Proof.
  destruct (registry_within_capacity Relay.sampleOptions)
    as (_ & Hfull & Hnext).
  split.
  - apply Hfull. reflexivity.
  - apply (Hnext Relay.sampleEvents "ws-2000-b"). reflexivity.
Defined.

Lemma heartbeat_one_pass_witness :
  Js.map_get "ws-2000-b"
    (Relay.connections (Relay.heartbeat 100000 Relay.sampleRelay).1) = None
  ∧ (2%nat, 1000, "Timeout")
    ∈ Relay.closed (Relay.heartbeat 100000 Relay.sampleRelay).2.
Proof.
  destruct (heartbeat_one_pass 100000 Relay.sampleRelay)
    as (_ & _ & _ & _ & Hkey).
  apply (Hkey ltac:(apply (bool_decide_unpack _); reflexivity)
           "ws-2000-b"
           (Relay.mkConnection "ws-2000-b" 2%nat "10.0.0.2" 2000 2000 0)).
  reflexivity.
Defined.

(** ** The [/api/*] handlers *)

Section DispatcherFacts.
Import Dispatcher.
Variable TARGET_URL : string.
Variable axios_get : string → gmap string string → axiosResponse + axiosError.
Variable axios_post :
  string → json → gmap string string → axiosResponse + axiosError.
Variable URLSearchParams_toString : list (string * string) → string.

Lemma errorStatus_known (error : axiosError) (resp : axiosResponse) :
  response error = Some resp → status resp ≠ 0 →
  errorStatus error = status resp.
Proof.
  intros Hresp Hstatus. unfold errorStatus. rewrite Hresp.
  by rewrite bool_decide_false.
Qed.

Lemma errorStatus_unknown (error : axiosError) :
  response error = None → errorStatus error = 500.
Proof. intros Hresp. unfold errorStatus. by rewrite Hresp. Qed.

Lemma proxyError_surfaces (error : axiosError) (timestamp : string) :
  surfaces error timestamp (proxyError error timestamp).
Proof.
  unfold surfaces. split_and!; [| | reflexivity..].
  - apply errorStatus_known.
  - apply errorStatus_unknown.
Qed.

(** C8: when the upstream call of the GET handler, or of the POST handler,
    fails, the reply carries the status of the upstream if the failure has
    one and 500 otherwise, and its body has the fields [error], [message] and
    [timestamp]. *)
Theorem api_failure_surfaces (req : request) (timestamp : string)
    (error : axiosError) :
  (axios_get (upstreamGetUrl TARGET_URL URLSearchParams_toString req)
     (forwardedHeaders req) = inr error →
   surfaces error timestamp
     (apiGet TARGET_URL axios_get URLSearchParams_toString req timestamp))
  ∧ (axios_post (TARGET_URL +:+ "/" +:+ path req) (body req)
       (forwardedHeaders req) = inr error →
     surfaces error timestamp (apiPost TARGET_URL axios_post req timestamp)).
Proof.
  split; intros Hfail.
  - unfold apiGet. rewrite Hfail. apply proxyError_surfaces.
  - unfold apiPost. rewrite Hfail. apply proxyError_surfaces.
Qed.

End DispatcherFacts.

Lemma api_failure_surfaces_witness :
  Dispatcher.code
    (Dispatcher.apiGet "https://api.example.com"
       (λ _ _, inr (Dispatcher.mkError "Request failed with status code 404"
                      (Some (Dispatcher.mkResponse 404 Dispatcher.JNull))))
       (λ _, "")
       (Dispatcher.mkRequest "users" [] ∅ "10.0.0.1" "/api/users" Dispatcher.JNull)
       "2024-01-01T00:00:00.000Z") = 404
  ∧ Dispatcher.code
      (Dispatcher.apiPost "https://api.example.com"
         (λ _ _ _, inr (Dispatcher.mkError "connect ECONNREFUSED" None))
         (Dispatcher.mkRequest "users" [] ∅ "10.0.0.1" "/api/users" Dispatcher.JNull)
         "2024-01-01T00:00:00.000Z") = 500.
Proof.
  split.
  - destruct (api_failure_surfaces "https://api.example.com"
                (λ _ _, inr (Dispatcher.mkError "Request failed with status code 404"
                               (Some (Dispatcher.mkResponse 404 Dispatcher.JNull))))
                (λ _ _ _, inl (Dispatcher.mkResponse 200 Dispatcher.JNull))
                (λ _, "")
                (Dispatcher.mkRequest "users" [] ∅ "10.0.0.1" "/api/users"
                   Dispatcher.JNull)
                "2024-01-01T00:00:00.000Z"
                (Dispatcher.mkError "Request failed with status code 404"
                   (Some (Dispatcher.mkResponse 404 Dispatcher.JNull))))
      as [Hget _].
    destruct (Hget eq_refl) as (Hknown & _).
    apply (Hknown (Dispatcher.mkResponse 404 Dispatcher.JNull)); [reflexivity | simpl; lia].
  - destruct (api_failure_surfaces "https://api.example.com"
                (λ _ _, inl (Dispatcher.mkResponse 200 Dispatcher.JNull))
                (λ _ _ _, inr (Dispatcher.mkError "connect ECONNREFUSED" None))
                (λ _, "")
                (Dispatcher.mkRequest "users" [] ∅ "10.0.0.1" "/api/users"
                   Dispatcher.JNull)
                "2024-01-01T00:00:00.000Z"
                (Dispatcher.mkError "connect ECONNREFUSED" None))
      as [_ Hpost].
    destruct (Hpost eq_refl) as (_ & Hunknown & _).
    apply Hunknown. reflexivity.
Defined.

(** ** The cookie relay on concrete headers *)

(** C2, at the header [__proto__=x] with both lists empty: the policy admits
    the name, and [relayCookie] creates the jar of the session but leaves it
    empty, the assignment into the jar having no effect for this name; the
    header [sid=x] is stored by the same call. *)
Theorem relayCookie_proto_not_stored :
  Cookies.name (Cookies.parseCookieString Js.toLowerCaseASCII "__proto__=x")
    = "__proto__"
  ∧ Cookies.value (Cookies.parseCookieString Js.toLowerCaseASCII "__proto__=x")
    = Js.VString "x"
  ∧ Cookies.policyAdmits
      (Cookies.constructor (Cookies.mkUserOptions None None None None))
      "__proto__" = true
  ∧ Cookies.getCookies "s1"
      (Cookies.relayCookie Js.toLowerCaseASCII
         (Cookies.constructor (Cookies.mkUserOptions None None None None))
         "s1" "__proto__=x" Cookies.emptyStore) = ∅
  ∧ Cookies.getCookies "s1"
      (Cookies.relayCookie Js.toLowerCaseASCII
         (Cookies.constructor (Cookies.mkUserOptions None None None None))
         "s1" "sid=x" Cookies.emptyStore) = {[ "sid" := Js.VString "x" ]}.
Proof.
  split_and!; reflexivity.
Qed.

(** C4, at the header [sid=abc; Secure; HttpOnly] with both overrides
    configured: the overrides change the parsed record only ([secure] becomes
    [false], [httponly] stays [true] beside a new key [httpOnly]), and the jar
    receives the bare value under the name, no attribute with it; for every
    header the store is the one the relay without overrides produces. *)
Theorem relayCookie_overrides_not_stored :
  Cookies.attributes
    (Cookies.applyOverrides (Cookies.mkOptions true true [] [])
       (Cookies.parseCookieString Js.toLowerCaseASCII "sid=abc; Secure; HttpOnly"))
  = {[ "secure" := Js.VBool false; "httponly" := Js.VBool true;
       "httpOnly" := Js.VBool false ]}
  ∧ Cookies.getCookies "s1"
      (Cookies.relayCookie Js.toLowerCaseASCII (Cookies.mkOptions true true [] [])
         "s1" "sid=abc; Secure; HttpOnly" Cookies.emptyStore)
    = {[ "sid" := Js.VString "abc" ]}
  ∧ ∀ toLowerCase o sessionId cookieString cookieStore,
      Cookies.relayCookie toLowerCase o sessionId cookieString cookieStore
      = Cookies.relayCookie toLowerCase
          (Cookies.mkOptions false false (Cookies.cookieWhitelist o)
             (Cookies.cookieBlacklist o))
          sessionId cookieString cookieStore.
Proof.
  split_and!; [reflexivity | reflexivity |].
  intros. apply relayCookie_overrides_irrelevant.
Qed.

(* ===================================================================== *)
(** * Part III — further properties of the code                           *)
(* ===================================================================== *)

(** ** Strings, continued *)

Lemma string_app_cons (a : ascii) (s t : string) :
  String a s +:+ t = String a (s +:+ t).
Proof. reflexivity. Qed.

Lemma string_app_nil_l (s : string) : "" +:+ s = s.
Proof. reflexivity. Qed.

Lemma chars_app (s t : string) : Js.chars (s +:+ t) = Js.chars s ++ Js.chars t.
Proof.
  induction s as [|a s IH]; [done |].
  rewrite string_app_cons. simpl. by rewrite IH.
Qed.

Lemma string_app_inv_head (p s t : string) : p +:+ s = p +:+ t → s = t.
Proof.
  induction p as [|a p IH]; [done |].
  rewrite !string_app_cons. intros [= H]. auto.
Qed.

Lemma string_app_assoc (s t u : string) : (s +:+ t) +:+ u = s +:+ t +:+ u.
Proof.
  induction s as [|a s IH]; [done |].
  rewrite !string_app_cons. by rewrite IH.
Qed.

Lemma string_app_nil_r (s : string) : s +:+ "" = s.
Proof.
  induction s as [|a s IH]; [done |]. rewrite string_app_cons. by rewrite IH.
Qed.

Lemma string_app_length (s t : string) :
  String.length (s +:+ t) = (String.length s + String.length t)%nat.
Proof.
  induction s as [|a s IH]; [done |].
  rewrite string_app_cons. simpl. by rewrite IH.
Qed.

Lemma startsWith_head_ne (a b : ascii) (s p : string) :
  a ≠ b → Js.startsWith (String a s) (String b p) = false.
Proof. intros Hne. rewrite startsWith_cons. by rewrite decide_False. Qed.

(** ** [encodeURIComponent] *)

Lemma hexDigit_unreserved (n : nat) :
  (n < 16)%nat → Js.isUnreserved (Js.hexDigit n) = true.
Proof.
  intros Hn. do 16 (destruct n as [|n]; [reflexivity |]). lia.
Qed.

Lemma hexDigit_inj (n m : nat) :
  (n < 16)%nat → (m < 16)%nat → Js.hexDigit n = Js.hexDigit m → n = m.
Proof.
  intros Hn Hm Heq. apply (f_equal nat_of_ascii) in Heq.
  unfold Js.hexDigit in Heq.
  repeat case_match; rewrite !nat_ascii_embedding in Heq by lia;
    repeat match goal with
           | H : (_ <? _)%nat = true |- _ => apply Nat.ltb_lt in H
           | H : (_ <? _)%nat = false |- _ => apply Nat.ltb_ge in H
           end; lia.
Qed.

Lemma nat_of_ascii_lt (a : ascii) : (nat_of_ascii a < 256)%nat.
Proof. apply nat_ascii_bounded. Qed.

Lemma percentEncode_inj (a b : ascii) :
  Js.percentEncode a = Js.percentEncode b → a = b.
Proof.
  unfold Js.percentEncode.
  pose proof (nat_of_ascii_lt a) as Ha. pose proof (nat_of_ascii_lt b) as Hb.
  pose proof (Nat.div_mod_eq (nat_of_ascii a) 16) as Hdiva.
  pose proof (Nat.div_mod_eq (nat_of_ascii b) 16) as Hdivb.
  pose proof (Nat.mod_upper_bound (nat_of_ascii a) 16 ltac:(lia)) as Hmoda.
  pose proof (Nat.mod_upper_bound (nat_of_ascii b) 16 ltac:(lia)) as Hmodb.
  remember (nat_of_ascii a `div` 16)%nat as hia.
  remember (nat_of_ascii a `mod` 16)%nat as loa.
  remember (nat_of_ascii b `div` 16)%nat as hib.
  remember (nat_of_ascii b `mod` 16)%nat as lob.
  intros [= Hhi Hlo].
  apply hexDigit_inj in Hhi; [| lia..].
  apply hexDigit_inj in Hlo; [| lia..].
  rewrite <- (ascii_nat_embedding a), <- (ascii_nat_embedding b). f_equal.
  lia.
Qed.

Lemma percentEncode_app_inv (a b : ascii) (x y : string) :
  Js.percentEncode a +:+ x = Js.percentEncode b +:+ y → a = b ∧ x = y.
Proof.
  assert (∀ h1 l1 h2 l2 : ascii,
             String "%" (String h1 (String l1 "")) +:+ x
             = String "%" (String h2 (String l2 "")) +:+ y →
             h1 = h2 ∧ l1 = l2 ∧ x = y) as Hinv.
  { intros h1 l1 h2 l2. rewrite !string_app_cons, !string_app_nil_l.
    by intros [= -> -> ->]. }
  intros Heq. apply Hinv in Heq as (Hhi & Hlo & Hrest).
  split; [| done]. apply percentEncode_inj. unfold Js.percentEncode.
  by rewrite Hhi, Hlo.
Qed.

Lemma percent_not_unreserved (a : ascii) :
  Js.isUnreserved a = true → a ≠ "%"%char.
Proof. intros Hun ->. vm_compute in Hun. done. Qed.

Lemma encodeURIComponent_inj (s t : string) :
  Js.encodeURIComponent s = Js.encodeURIComponent t → s = t.
Proof.
  revert t. induction s as [|a s IH]; intros [|b t]; simpl.
  - done.
  - destruct (Js.isUnreserved b); done.
  - destruct (Js.isUnreserved a); done.
  - destruct (Js.isUnreserved a) eqn:Ha, (Js.isUnreserved b) eqn:Hb.
    + rewrite !string_app_cons, !string_app_nil_l.
      intros [= -> Hrest]. f_equal. auto.
    + unfold Js.percentEncode. rewrite !string_app_cons.
      intros [= -> _]. by apply percent_not_unreserved in Ha.
    + unfold Js.percentEncode. rewrite !string_app_cons.
      intros [= <- _]. by apply percent_not_unreserved in Hb.
    + intros [-> Hrest]%percentEncode_app_inv. f_equal. auto.
Qed.

Section ResolverMore.
Import Js Rewriter.
Variable newURL : string → option URL.
Variable newURLrel : string → string → option URL.
#[local] Abbreviation resolve := (rewriteUrl newURL newURLrel).

(** X1: whatever [rewriteUrl] returns is its input or a proxy link: the
    proxy base, [/proxy?url=] and a percent-encoded address. *)
Theorem rewriteUrl_shape (url proxyBaseUrl targetUrl result : string) :
  resolve url proxyBaseUrl targetUrl = Some result →
  result = url
  ∨ ∃ absolute,
      result = proxyBaseUrl +:+ "/proxy?url=" +:+ encodeURIComponent absolute.
Proof.
  unfold rewriteUrl. intros Hres.
  destruct (newURL targetUrl), (newURLrel url targetUrl);
    cbn [mbind option_bind] in Hres;
    repeat case_match; try done; injection Hres as <-;
    first [by left | right; eexists; reflexivity].
Qed.




End ResolverMore.

(** X5: the percent-encoded address consists of unreserved characters and
    percent signs only; none of the characters that separate the parts of a
    query ([&], [=], [?], [#], [/], [:], [;], [+], [,], the blank) occurs in
    it. *)
Theorem encodeURIComponent_query_safe (s : string) :
  Forall (λ c, Js.isUnreserved c = true ∨ c = "%"%char)
         (Js.chars (Js.encodeURIComponent s))
  ∧ Forall (λ c, c ∉ Js.chars (Js.encodeURIComponent s))
           (Js.chars "&=?#/:;+, ").
Proof.
  assert (Forall (λ c, Js.isUnreserved c = true ∨ c = "%"%char)
                 (Js.chars (Js.encodeURIComponent s))) as Hsafe.
  { induction s as [|a s IH]; simpl; [constructor |].
    rewrite chars_app. apply Forall_app. split; [| exact IH].
    destruct (Js.isUnreserved a) eqn:Ha.
    - apply Forall_singleton. by left.
    - unfold Js.percentEncode, Js.chars. pose proof (nat_of_ascii_lt a).
      cbn [String.list_ascii_of_string].
      repeat apply Forall_cons_2; [by right | left | left | constructor].
      + apply hexDigit_unreserved, Nat.Div0.div_lt_upper_bound. lia.
      + apply hexDigit_unreserved, Nat.mod_upper_bound. lia. }
  split; [exact Hsafe |].
  rewrite Forall_forall in Hsafe.
  apply Forall_forall. intros c Hc Hin.
  destruct (Hsafe c Hin) as [Hun | ->].
  - vm_compute in Hc.
    repeat (apply elem_of_cons in Hc as [-> | Hc]; [by vm_compute in Hun |]).
    by apply elem_of_nil in Hc.
  - vm_compute in Hc.
    repeat (apply elem_of_cons in Hc as [[=] | Hc]).
    by apply elem_of_nil in Hc.
Qed.

(** X6: the encoding loses nothing: two addresses with the same encoding are
    the same address, so two proxy links for the same proxy base are equal
    only when they carry the same address. *)
Theorem proxyLink_injective (proxyBaseUrl absolute1 absolute2 : string) :
  Rewriter.proxyLink proxyBaseUrl absolute1
  = Rewriter.proxyLink proxyBaseUrl absolute2 →
  absolute1 = absolute2.
Proof.
  unfold Rewriter.proxyLink. intros Heq.
  apply string_app_inv_head in Heq.
  apply (string_app_inv_head "/proxy?url=") in Heq.
  by apply encodeURIComponent_inj.
Qed.

(** ** [rewriteCss] *)

Section CssFacts.
Import Js Css.
Variable newURL : string → option Rewriter.URL.
Variable newURLrel : string → string → option Rewriter.URL.
#[local] Abbreviation resolveCss := (Rewriter.rewriteUrl newURL newURLrel).
#[local] Abbreviation scan := (replaceUrls newURL newURLrel).

Lemma dropUrlParen_Some (s rest : string) :
  dropUrlParen s = Some rest →
  ∃ a b c, s = String a (String b (String c (String "(" rest))).
Proof.
  destruct s as [|a [|b [|c [|d s]]]]; try done. unfold dropUrlParen.
  case_match; [| done]. intros [= ->].
  repeat match goal with
         | H : _ && _ = true |- _ => apply andb_prop in H as [? ?]
         end.
  exists a, b, c. f_equal. f_equal. f_equal. f_equal.
  by eapply bool_decide_eq_true_1.
Qed.

Lemma dropQuote_length (s : string) :
  (String.length (dropQuote s) ≤ String.length s)%nat.
Proof. destruct s as [|a s]; simpl; [done |]. case_match; simpl; lia. Qed.

Lemma spanValue_length (s run rest : string) :
  spanValue s = (run, rest) →
  String.length s = (String.length run + String.length rest)%nat.
Proof.
  revert run rest. induction s as [|a s IH]; intros run rest; simpl.
  - by intros [= <- <-].
  - destruct (isDelimiter a); [by intros [= <- <-] |].
    destruct (spanValue s) as [run' rest'] eqn:Hspan.
    intros [= <- <-]. simpl. by rewrite (IH run' rest').
Qed.

Lemma matchUrl_paren (s captured rest : string) :
  matchUrl s = Some (captured, rest) → "("%char ∈ chars s.
Proof.
  unfold matchUrl. destruct (dropUrlParen s) as [s1|] eqn:Hdrop; [| done].
  intros _. apply dropUrlParen_Some in Hdrop as (a & b & c & ->).
  unfold chars. simpl. set_solver.
Qed.

Lemma matchUrl_shorter (s captured rest : string) :
  matchUrl s = Some (captured, rest) →
  (String.length rest < String.length s)%nat.
Proof.
  unfold matchUrl. destruct (dropUrlParen s) as [s1|] eqn:Hdrop; [| done].
  apply dropUrlParen_Some in Hdrop as (a & b & c & ->).
  destruct (spanValue (dropQuote s1)) as [run s2] eqn:Hspan.
  apply spanValue_length in Hspan.
  pose proof (dropQuote_length s1). pose proof (dropQuote_length s2).
  case_bool_decide; [done |].
  destruct (dropQuote s2) as [|d rest'] eqn:Hd; [done |].
  case_bool_decide; [| done]. intros [= _ <-]. simpl in *. lia.
Qed.

Lemma replaceUrls_nil (fuel : nat) (proxyBaseUrl targetUrl : string) :
  scan fuel proxyBaseUrl targetUrl "" = Some "".
Proof. by destruct fuel. Qed.

(** The fuel is not a limit: from the length of the text on, more fuel
    gives the same result. *)
Lemma replaceUrls_fuel (fuel fuel' : nat) (proxyBaseUrl targetUrl s : string) :
  (String.length s ≤ fuel)%nat → (String.length s ≤ fuel')%nat →
  scan fuel proxyBaseUrl targetUrl s = scan fuel' proxyBaseUrl targetUrl s.
Proof.
  revert fuel' s. induction fuel as [|fuel IH]; intros fuel' s Hfuel Hfuel'.
  - destruct s; [| simpl in Hfuel; lia]. by rewrite !replaceUrls_nil.
  - destruct s as [|a s]; [by rewrite !replaceUrls_nil |].
    destruct fuel' as [|fuel']; [simpl in Hfuel'; lia |].
    simpl in Hfuel, Hfuel'. cbn [replaceUrls].
    destruct (matchUrl (String a s)) as [[captured rest]|] eqn:Hmatch.
    + apply matchUrl_shorter in Hmatch. simpl in Hmatch.
      by rewrite (IH fuel' rest) by lia.
    + by rewrite (IH fuel' s) by lia.
Qed.

Lemma replaceUrls_no_paren (fuel : nat) (proxyBaseUrl targetUrl s : string) :
  "("%char ∉ chars s → scan fuel proxyBaseUrl targetUrl s = Some s.
Proof.
  revert s. induction fuel as [|fuel IH]; intros s Hno; [done |].
  destruct s as [|a s]; [done |]. cbn [replaceUrls].
  destruct (matchUrl (String a s)) as [[captured rest]|] eqn:Hmatch.
  - by apply matchUrl_paren in Hmatch.
  - rewrite IH; [done |]. intros Hin. apply Hno. unfold chars. simpl.
    apply elem_of_cons. by right.
Qed.

(** X7: a style sheet without an opening parenthesis has no [url(...)]
    token, and [rewriteCss] returns it as it is, for every proxy base and
    target. *)
Theorem rewriteCss_no_paren (css proxyBaseUrl targetUrl : string) :
  "("%char ∉ chars css →
  rewriteCss newURL newURLrel css proxyBaseUrl targetUrl = css.
Proof.
  intros Hno. unfold rewriteCss. by rewrite replaceUrls_no_paren.
Qed.

Lemma spanValue_app (v rest : string) :
  Forall (λ c, isDelimiter c = false) (chars v) →
  (rest = "" ∨ ∃ d rest', rest = String d rest' ∧ isDelimiter d = true) →
  spanValue (v +:+ rest) = (v, rest).
Proof.
  intros Hv Hrest. induction v as [|a v IH].
  - rewrite string_app_nil_l.
    destruct Hrest as [-> | (d & rest' & -> & Hd)]; simpl; [done |].
    by rewrite Hd.
  - apply Forall_cons in Hv as [Ha Hv]. rewrite string_app_cons. simpl.
    rewrite Ha. by rewrite IH.
Qed.

(** The three ways the pattern lets a value be wrapped: no quote, a single
    quote, a double quote. *)
Lemma dropQuote_optional (q rest : string) (d : ascii) :
  q = "" ∨ q = "'" ∨ q = String doubleQuote "" →
  isQuote d = false →
  dropQuote (q +:+ String d rest) = String d rest.
Proof.
  intros [-> | [-> | ->]] Hd.
  - rewrite string_app_nil_l. simpl. by rewrite Hd.
  - done.
  - done.
Qed.

(** X8: one [url(...)] token whose value has no parenthesis or quote in it,
    wrapped in no quotes, single quotes or double quotes, is rewritten to the
    resolved value in single quotes; when the resolver throws for the value,
    the token is returned as it was. *)
Theorem rewriteCss_token (q1 q2 value proxyBaseUrl targetUrl : string) :
  value ≠ "" →
  Forall (λ c, isDelimiter c = false) (chars value) →
  q1 = "" ∨ q1 = "'" ∨ q1 = String doubleQuote "" →
  q2 = "" ∨ q2 = "'" ∨ q2 = String doubleQuote "" →
  rewriteCss newURL newURLrel ("url(" +:+ q1 +:+ value +:+ q2 +:+ ")")
    proxyBaseUrl targetUrl
  = match resolveCss value proxyBaseUrl targetUrl with
    | Some rewritten => "url('" +:+ rewritten +:+ "')"
    | None => "url(" +:+ q1 +:+ value +:+ q2 +:+ ")"
    end.
Proof.
  intros Hne Hvalue Hq1 Hq2.
  assert (matchUrl ("url(" +:+ q1 +:+ value +:+ q2 +:+ ")") = Some (value, ""))
    as Hmatch.
  { unfold matchUrl.
    change (dropUrlParen ("url(" +:+ q1 +:+ value +:+ q2 +:+ ")"))
      with (Some (q1 +:+ value +:+ q2 +:+ ")")).
    cbv beta iota.
    destruct value as [|a value]; [done |].
    pose proof Hvalue as [Ha _]%Forall_cons.
    apply orb_false_elim in Ha as [_ Ha].
    rewrite string_app_cons, (dropQuote_optional q1) by done.
    rewrite <- string_app_cons, spanValue_app; [| done |].
    - rewrite bool_decide_false by done.
      destruct Hq2 as [-> | [-> | ->]]; by vm_compute.
    - right. destruct Hq2 as [-> | [-> | ->]]; eauto. }
  unfold rewriteCss.
  change (String.length ("url(" +:+ q1 +:+ value +:+ q2 +:+ ")"))
    with (S (String.length ("rl(" +:+ q1 +:+ value +:+ q2 +:+ ")"))).
  cbn [replaceUrls].
  change ("url(" +:+ q1 +:+ value +:+ q2 +:+ ")")
    with (String "u" ("rl(" +:+ q1 +:+ value +:+ q2 +:+ ")")) at 1.
  cbv beta iota.
  change (String "u" ("rl(" +:+ q1 +:+ value +:+ q2 +:+ ")"))
    with ("url(" +:+ q1 +:+ value +:+ q2 +:+ ")").
  rewrite Hmatch. rewrite replaceUrls_nil.
  destruct (resolveCss value proxyBaseUrl targetUrl) as [rewritten|];
    [| done].
  simpl. by rewrite (string_app_nil_r "')").
Qed.

End CssFacts.

(** ** The cookie relay, continued *)

Lemma object_assign_lookup (jar source : gmap string Js.value) (k : string) :
  Js.object_assign jar source !! k
  = match (if decide (k = "__proto__") then None else source !! k) with
    | Some v => Some v
    | None => jar !! k
    end.
Proof.
  unfold Js.object_assign. rewrite lookup_union.
  case_decide as Hk.
  - subst k. rewrite lookup_delete_eq. by destruct (jar !! "__proto__").
  - rewrite lookup_delete_ne by done.
    destruct (source !! k), (jar !! k); done.
Qed.

Section CookieMore.
Import Js Cookies.
Variable toLowerCase : string → string.
#[local] Abbreviation parseHeader := (parseCookieString toLowerCase).
#[local] Abbreviation relayHeader := (relayCookie toLowerCase).

(** X9: [storeCookies] merges by name: afterwards a name of the incoming
    object (other than [__proto__]) has the incoming value, and every other
    name has the value it had in the jar before. *)
Theorem storeCookies_merge (sessionId k : string)
    (cookies : gmap string Js.value)
    (cookieStore : gmap string (gmap string Js.value)) :
  getCookies sessionId (storeCookies sessionId cookies cookieStore) !! k
  = match (if decide (k = "__proto__") then None else cookies !! k) with
    | Some v => Some v
    | None => getCookies sessionId cookieStore !! k
    end.
Proof. rewrite getCookies_storeCookies. apply object_assign_lookup. Qed.

(** X10: [relayCookie] changes at most one entry of the jar: the entry of
    the parsed name gets the parsed value when the policy admits the name
    (last write wins), and every other entry keeps its value. *)
Theorem relayCookie_lookup (o : options) (sessionId cookieString k : string)
    (cookieStore : gmap string (gmap string Js.value)) :
  getCookies sessionId (relayHeader o sessionId cookieString cookieStore) !! k
  = if policyAdmits o (name (parseHeader cookieString))
       && bool_decide (k = name (parseHeader cookieString))
       && negb (bool_decide (k = "__proto__"))
    then Some (value (parseHeader cookieString))
    else getCookies sessionId cookieStore !! k.
Proof.
  rewrite relayCookie_policy.
  destruct (policyAdmits o _); [| done].
  rewrite getCookies_storeCookies, object_assign_lookup. cbn [andb].
  case_decide as Hproto.
  - rewrite (bool_decide_true (k = "__proto__")) by done.
    by rewrite andb_false_r.
  - rewrite (bool_decide_false (k = "__proto__")) by done.
    rewrite andb_true_r. case_bool_decide as Hk.
    + subst k. by rewrite lookup_singleton_eq.
    + by rewrite lookup_singleton_ne.
Qed.

(** X11: the jars of different sessions are separate: storing, relaying or
    clearing for one session leaves what [getCookies] returns for every
    other session as it was. *)
Theorem cookies_session_isolation (o : options)
    (sessionId other cookieString : string) (cookies : gmap string Js.value)
    (cookieStore : gmap string (gmap string Js.value)) :
  other ≠ sessionId →
  getCookies other (storeCookies sessionId cookies cookieStore)
    = getCookies other cookieStore
  ∧ getCookies other (relayHeader o sessionId cookieString cookieStore)
    = getCookies other cookieStore
  ∧ getCookies other (clearCookies sessionId cookieStore)
    = getCookies other cookieStore.
Proof.
  intros Hne. split_and!.
  - by apply getCookies_storeCookies_other.
  - rewrite relayCookie_policy. case_match; [| done].
    by apply getCookies_storeCookies_other.
  - unfold getCookies, clearCookies. by rewrite lookup_delete_ne.
Qed.


(** X13: a header whose name-value part has no equals sign is read as a
    cookie with that whole part as its name and [undefined] as its value;
    nothing is rejected as malformed, the empty header included. *)
Theorem parseCookieString_no_equals (cookieString nameValue : string) :
  default "" ((trim <$> split ";" cookieString) !! 0%nat) = nameValue →
  "="%char ∉ chars nameValue →
  name (parseHeader cookieString) = nameValue
  ∧ value (parseHeader cookieString) = VUndefined
  ∧ ∀ o sessionId cookieStore,
      policyAdmits o nameValue = true →
      relayHeader o sessionId cookieString cookieStore
      = storeCookies sessionId {[ nameValue := VUndefined ]} cookieStore.
Proof.
  intros Hnv Hno.
  assert (name (parseHeader cookieString) = nameValue
          ∧ value (parseHeader cookieString) = VUndefined) as [Hname Hvalue].
  { unfold parseCookieString; simpl. by rewrite Hnv, split_without. }
  split_and!; [done | done |].
  intros o sessionId cookieStore Hadm.
  by rewrite relayCookie_policy, Hname, Hvalue, Hadm.
Qed.

End CookieMore.

(** ** [configureSessionMiddleware] *)

(** X14: unless the caller hands in a whole [cookie] object, the session
    cookie is always [httpOnly] (the option [httpOnly: false] has no
    effect), it is [secure] in production whatever the option [secure] says,
    its [maxAge] is never zero (a given zero falls back to 24 hours) and its
    [sameSite] is never empty. *)
Theorem session_cookie_floor (o : Session.options) (env : Session.environment) :
  Session.given_cookie o = None →
  Session.httpOnly (Session.cookie (Session.configureSessionMiddleware o env))
    = true
  ∧ (Session.NODE_ENV env = Some "production" →
     Session.secure (Session.cookie (Session.configureSessionMiddleware o env))
       = true)
  ∧ Session.maxAge (Session.cookie (Session.configureSessionMiddleware o env))
    ≠ 0
  ∧ Session.sameSite (Session.cookie (Session.configureSessionMiddleware o env))
    ≠ "".
Proof.
  intros Hcookie. unfold Session.configureSessionMiddleware. rewrite Hcookie.
  simpl. split_and!.
  - by destruct (Session.given_httpOnly o) as [[]|].
  - intros ->. by destruct (Session.given_secure o) as [[]|].
  - unfold Session.orNumber. destruct (Session.cookieMaxAge o) as [z|]; [| done].
    by case_bool_decide.
  - unfold Session.orString. destruct (Session.given_sameSite o) as [s|]; [| done].
    by case_bool_decide.
Qed.

(** The session secret is never empty when it comes from
    [sessionSecret] or the environment: an empty [sessionSecret] falls
    through to [SESSION_SECRET], an empty [SESSION_SECRET] to the built-in
    secret; only a [secret] key given directly is taken as it is. *)
Lemma session_secret_fallback (o : Session.options) (env : Session.environment) :
  (Session.given_secret o = None →
   Session.secret (Session.configureSessionMiddleware o env) ≠ ""
   ∧ (∀ s, Session.sessionSecret o = Some s → s ≠ "" →
        Session.secret (Session.configureSessionMiddleware o env) = s)
   ∧ (Session.sessionSecret o = None ∨ Session.sessionSecret o = Some "" →
      ∀ s, Session.SESSION_SECRET env = Some s → s ≠ "" →
        Session.secret (Session.configureSessionMiddleware o env) = s))
  ∧ (∀ s, Session.given_secret o = Some s →
       Session.secret (Session.configureSessionMiddleware o env) = s).
Proof.
  unfold Session.configureSessionMiddleware, Session.orString. simpl.
  split.
  - intros ->. simpl. split_and!.
    + repeat case_match; repeat case_bool_decide; done.
    + intros s -> Hs. by rewrite bool_decide_false.
    + intros [-> | ->] s -> Hs; simpl; by rewrite bool_decide_false.
  - by intros s ->.
Qed.

(** ** The authentication tracker *)

Section AuthFacts.
Import Auth.
Context {User : Type}.
Implicit Types (states : gmap string (authState User)).

Lemma authenticated_count_insert_fresh states (sessionId : string)
    (s : authState User) :
  states !! sessionId = None →
  authenticatedUsers (getStats User (<[sessionId := s]> states))
  = ((if isAuthenticated User s then 1 else 0)
     + authenticatedUsers (getStats User states))%nat.
Proof.
  intros Hfresh. unfold getStats. simpl.
  pose proof (map_to_list_insert states sessionId s Hfresh) as Hperm.
  apply (fmap_Permutation snd) in Hperm.
  apply (filter_Permutation (λ s, isAuthenticated User s = true)) in Hperm.
  apply Permutation_length in Hperm. rewrite Hperm.
  cbn [fmap list_fmap snd]. rewrite filter_cons.
  destruct (isAuthenticated User s).
  - by rewrite decide_True.
  - by rewrite decide_False.
Qed.

Lemma authenticated_count_insert states (sessionId : string)
    (s : authState User) :
  authenticatedUsers (getStats User (<[sessionId := s]> states))
  = ((if isAuthenticated User s then 1 else 0)
     + authenticatedUsers (getStats User (delete sessionId states)))%nat.
Proof.
  rewrite <- insert_delete_eq.
  apply authenticated_count_insert_fresh, lookup_delete_eq.
Qed.

Lemma authenticated_count_delete states (sessionId : string)
    (s : authState User) :
  states !! sessionId = Some s →
  authenticatedUsers (getStats User states)
  = ((if isAuthenticated User s then 1 else 0)
     + authenticatedUsers (getStats User (delete sessionId states)))%nat.
Proof.
  intros Hs. rewrite <- (insert_id states sessionId s) at 1 by done.
  apply authenticated_count_insert.
Qed.

(** X15: the statistics never report more authenticated users than tracked
    sessions. *)
Theorem auth_stats_bound states :
  (authenticatedUsers (getStats User states)
   ≤ activeSessions (getStats User states))%nat.
Proof.
  unfold getStats. simpl.
  etrans; [apply length_filter |].
  by rewrite length_fmap, length_map_to_list.
Qed.

(** X16: after [setAuthState] the session reads as authenticated, with the
    user and the login time just given; the last-activity time of a session
    that was already tracked is kept, and every other session reads as
    before. *)
Theorem setAuthState_getAuthState states (sessionId : string) (u : User)
    (now : Z) :
  isAuthenticated User (getAuthState User sessionId (setAuthState User sessionId u now states))
    = true
  ∧ user User (getAuthState User sessionId (setAuthState User sessionId u now states))
    = Has u
  ∧ loginTime User (getAuthState User sessionId (setAuthState User sessionId u now states))
    = Has now
  ∧ lastActivity User (getAuthState User sessionId (setAuthState User sessionId u now states))
    = lastActivity User (getAuthState User sessionId states)
  ∧ ∀ other, other ≠ sessionId →
      getAuthState User other (setAuthState User sessionId u now states)
      = getAuthState User other states.
Proof.
  unfold getAuthState, setAuthState. rewrite lookup_insert_eq. simpl.
  split_and!; try done.
  - by destruct (states !! sessionId).
  - intros other Hne. by rewrite lookup_insert_ne.
Qed.

(** X17: after [clearAuthState] the session reads as not authenticated and
    without a user, whatever it was before, the other sessions read as
    before, and the session no longer counts in the statistics. *)
Theorem clearAuthState_getAuthState states (sessionId : string) :
  getAuthState User sessionId (clearAuthState User sessionId states)
    = {| isAuthenticated := false; user := Null;
         loginTime := Missing; lastActivity := Missing |}
  ∧ (∀ other, other ≠ sessionId →
       getAuthState User other (clearAuthState User sessionId states)
       = getAuthState User other states)
  ∧ activeSessions (getStats User (clearAuthState User sessionId states))
    = (activeSessions (getStats User states)
       - (if states !! sessionId is Some _ then 1 else 0))%nat.
Proof.
  unfold getAuthState, clearAuthState. split_and!.
  - by rewrite lookup_delete_eq.
  - intros other Hne. by rewrite lookup_delete_ne.
  - simpl. destruct (states !! sessionId) eqn:Hs.
    + rewrite map_size_delete_Some by eauto. lia.
    + rewrite delete_id by done. lia.
Qed.

Lemma middleware_unfold states (sessionID : string) (now : Z) :
  middleware User sessionID now states
  = <[sessionID :=
        match states !! sessionID with
        | Some s => {| isAuthenticated := isAuthenticated User s;
                       user := user User s; loginTime := loginTime User s;
                       lastActivity := Has now |}
        | None => {| isAuthenticated := false; user := Null;
                     loginTime := Null; lastActivity := Has now |}
        end]> states.
Proof.
  unfold middleware. destruct (states !! sessionID) as [s|] eqn:Hs.
  - by rewrite Hs.
  - rewrite lookup_insert_eq. by rewrite insert_insert_eq.
Qed.

(** X18: a request only touches the last-activity time of its session: a
    session that is tracked keeps its authentication flag, user and login
    time; a session that is new starts as not authenticated; the other
    sessions are not changed; and the number of authenticated users is the
    same before and after. *)
Theorem middleware_touch states (sessionID : string) (now : Z) :
  lastActivity User (getAuthState User sessionID (middleware User sessionID now states))
    = Has now
  ∧ isAuthenticated User (getAuthState User sessionID (middleware User sessionID now states))
    = isAuthenticated User (getAuthState User sessionID states)
  ∧ user User (getAuthState User sessionID (middleware User sessionID now states))
    = user User (getAuthState User sessionID states)
  ∧ (∀ s, states !! sessionID = Some s →
       loginTime User (getAuthState User sessionID (middleware User sessionID now states))
       = loginTime User s)
  ∧ (∀ other, other ≠ sessionID →
       middleware User sessionID now states !! other = states !! other)
  ∧ authenticatedUsers (getStats User (middleware User sessionID now states))
    = authenticatedUsers (getStats User states)
  ∧ activeSessions (getStats User (middleware User sessionID now states))
    = (activeSessions (getStats User states)
       + (if states !! sessionID is Some _ then 0 else 1))%nat.
Proof.
  rewrite middleware_unfold. unfold getAuthState. rewrite lookup_insert_eq.
  split_and!.
  - by destruct (states !! sessionID).
  - by destruct (states !! sessionID).
  - by destruct (states !! sessionID).
  - by intros s ->.
  - intros other Hne. by rewrite lookup_insert_ne.
  - destruct (states !! sessionID) as [s|] eqn:Hs.
    + rewrite authenticated_count_insert.
      by rewrite (authenticated_count_delete states sessionID s).
    + by rewrite authenticated_count_insert_fresh.
  - simpl. destruct (states !! sessionID) as [s|] eqn:Hs.
    + rewrite map_size_insert_Some by eauto. lia.
    + rewrite map_size_insert_None by done. lia.
Qed.

(** X19: a login raises the number of authenticated users by one when the
    session was not authenticated before (new or anonymous), and leaves it
    when the session was authenticated already. *)
Theorem setAuthState_stats states (sessionId : string) (u : User) (now : Z) :
  authenticatedUsers (getStats User (setAuthState User sessionId u now states))
  = (authenticatedUsers (getStats User states)
     + (if isAuthenticated User (getAuthState User sessionId states)
        then 0 else 1))%nat.
Proof.
  unfold setAuthState, getAuthState. rewrite authenticated_count_insert.
  destruct (states !! sessionId) as [s|] eqn:Hs.
  - rewrite (authenticated_count_delete states sessionId s) by done.
    cbn [isAuthenticated default]. unfold id.
    destruct (isAuthenticated User s); lia.
  - rewrite delete_id by done. cbn [isAuthenticated default]. lia.
Qed.

End AuthFacts.

(** ** The connection relay, continued *)

Section RelayMore.
Import Js Relay.
Implicit Types (r : relay) (o : options) (conn : connectionData).

Lemma totalMessages_sum (now : Z) r :
  totalMessages (getStats now r)
  = sum_list_with messages (map_values (connections r)).
Proof.
  unfold getStats. simpl.
  assert (∀ (l : list connectionData) (acc : nat),
             foldl (λ total conn, (total + messages conn)%nat) acc l
             = (acc + sum_list_with messages l)%nat) as Hfold.
  { induction l as [|conn l IH]; intros acc; [simpl; lia |].
    cbn [foldl sum_list_with]. rewrite IH. lia. }
  by rewrite Hfold.
Qed.

Lemma sum_messages_map_set (cid : string) conn conn'
    (m : list (string * connectionData)) :
  map_get cid m = Some conn →
  (sum_list_with messages (map_values (map_set cid conn' m)) + messages conn
   = sum_list_with messages (map_values m) + messages conn')%nat.
Proof.
  unfold map_values. induction m as [|[k c] m IH]; [done |].
  cbn [map_get map_set]. case_decide as Hk.
  - intros [= ->]. rewrite !fmap_cons. cbn [sum_list_with snd]. lia.
  - intros Hget. specialize (IH Hget).
    rewrite !fmap_cons. cbn [sum_list_with snd]. lia.
Qed.

Lemma sweep_survivor o (now : Z) (cid : string) conn
    (entries : list (string * connectionData)) :
  map_get cid entries = Some conn →
  idle o now conn = false →
  map_get cid (sweep o now entries).1 = Some conn
  ∧ ws conn ∈ pinged (sweep o now entries).2.
Proof.
  intros Hget Hfresh. induction entries as [|[k c] rest IH]; [done |].
  simpl in Hget |- *. destruct (sweep o now rest) as [kept out].
  simpl in IH. case_decide as Hk.
  - injection Hget as ->. rewrite Hfresh. simpl.
    rewrite decide_True by done. split; [done | apply list_elem_of_here].
  - destruct (IH Hget) as [IHget IHping].
    destruct (idle o now c); simpl.
    + done.
    + rewrite decide_False by done. split; [done |].
      by apply list_elem_of_further.
Qed.

Lemma sweep_effects_closes o (now : Z) (entries : list (string * connectionData))
    (w : socket) (code : Z) (reason : string) :
  WsClose w code reason ∈ (sweep o now entries).2 →
  code = 1000 ∧ reason = "Timeout".
Proof.
  induction entries as [|[k c] rest IH]; simpl; [by intros ?%elem_of_nil |].
  destruct (sweep o now rest) as [kept out]. simpl in IH.
  destruct (idle o now c); simpl.
  - intros [[=] | [[= _ <- <-] | Hin]%elem_of_cons]%elem_of_cons; auto.
  - intros [[=] | Hin]%elem_of_cons. auto.
Qed.

(** X20: a message on a registered connection sets its last-activity time,
    counts one more message for it and changes nothing else: the other
    fields and the other connections are as before, and so is the size of
    the registry; the acknowledgment is sent to the socket of that connection
    exactly when the socket is open. *)
Theorem handleMessage_registered (cid : string) (len : Z) (state : readyState)
    (now1 now2 : Z) r conn :
  map_get cid (connections r) = Some conn →
  map_get cid (connections (handleMessage cid len state now1 now2 r).1)
    = Some {| id := id conn; ws := ws conn; ip := ip conn;
              createdAt := createdAt conn; lastActivity := now1;
              messages := S (messages conn) |}
  ∧ (∀ other, other ≠ cid →
       map_get other (connections (handleMessage cid len state now1 now2 r).1)
       = map_get other (connections r))
  ∧ map_size (connections (handleMessage cid len state now1 now2 r).1)
    = map_size (connections r)
  ∧ (handleMessage cid len state now1 now2 r).2
    = LogMessage cid len ::
      (if decide (state = OPEN) then
         [WsSend (ws conn) {| echo_type := "relay-echo";
                              echo_timestamp := now2; echo_length := len |}]
       else []).
Proof.
  intros Hget. unfold handleMessage. rewrite Hget. simpl. split_and!.
  - apply map_get_set_eq.
  - intros other Hne. by apply map_get_set_ne.
  - rewrite map_set_size. rewrite Hget.
    by destruct (decide (is_Some (Some conn))) as [|[]].
  - done.
Qed.

(** X21: the message total of [getStats] grows by exactly one with every
    message handled for a registered connection, and does not move for a
    message on an unknown connection id. *)
Theorem handleMessage_totalMessages (cid : string) (len : Z)
    (state : readyState) (now1 now2 now : Z) r :
  totalMessages (getStats now (handleMessage cid len state now1 now2 r).1)
  = (totalMessages (getStats now r)
     + (if map_has cid (connections r) then 1 else 0))%nat.
Proof.
  rewrite !totalMessages_sum. unfold handleMessage, map_has.
  destruct (map_get cid (connections r)) as [conn|] eqn:Hget.
  - rewrite bool_decide_true by eauto.
    cbn [fst connections with_connections].
    pose proof (sum_messages_map_set cid conn
      {| id := id conn; ws := ws conn; ip := ip conn;
         createdAt := createdAt conn; lastActivity := now1;
         messages := S (messages conn) |} (connections r) Hget) as Hsum.
    cbn [messages] in Hsum. lia.
  - rewrite bool_decide_false by (by intros []). cbn [fst]. lia.
Qed.

(** X22: once a connection is closed, whatever still arrives for it is
    ignored: a second close, a late message and a late pong leave the relay
    as it is and do nothing, not even a console line. *)
Theorem events_after_close_ignored (cid : string) (len : Z)
    (state : readyState) (now1 now2 : Z) r :
  handleClose cid (handleClose cid r).1 = ((handleClose cid r).1, [])
  ∧ handleMessage cid len state now1 now2 (handleClose cid r).1
    = ((handleClose cid r).1, [])
  ∧ handlePong cid now1 (handleClose cid r).1 = ((handleClose cid r).1, []).
Proof.
  pose proof (handleClose_removes cid r) as Hgone.
  unfold handleClose at 1, handleMessage, handlePong.
  by rewrite !Hgone.
Qed.

(** X23: a connection that answers the probe is not evicted: after a pong
    at time [t], or a message at time [t], a sweep at any time up to
    [t + timeout] keeps the connection with the refreshed time and pings it
    again. *)
Theorem activity_survives_sweep (cid : string) (t now : Z) r conn :
  map_get cid (connections r) = Some conn →
  now - t ≤ timeout (opts r) →
  (map_get cid (connections (heartbeat now (handlePong cid t r).1).1)
     = Some {| id := id conn; ws := ws conn; ip := ip conn;
               createdAt := createdAt conn; lastActivity := t;
               messages := messages conn |}
   ∧ ws conn ∈ pinged (heartbeat now (handlePong cid t r).1).2)
  ∧ ∀ len state now2,
      map_get cid
        (connections (heartbeat now (handleMessage cid len state t now2 r).1).1)
      = Some {| id := id conn; ws := ws conn; ip := ip conn;
                createdAt := createdAt conn; lastActivity := t;
                messages := S (messages conn) |}
      ∧ ws conn
        ∈ pinged (heartbeat now (handleMessage cid len state t now2 r).1).2.
Proof.
  intros Hget Hwithin. split; [| intros len state now2];
    rewrite heartbeat_unfold; unfold handlePong, handleMessage;
    rewrite Hget; cbn [fst snd connections opts with_connections].
  - apply (sweep_survivor _ _ cid
             {| id := id conn; ws := ws conn; ip := ip conn;
                createdAt := createdAt conn; lastActivity := t;
                messages := messages conn |}).
    + apply map_get_set_eq.
    + unfold idle. simpl. apply bool_decide_eq_false. lia.
  - apply (sweep_survivor _ _ cid
             {| id := id conn; ws := ws conn; ip := ip conn;
                createdAt := createdAt conn; lastActivity := t;
                messages := S (messages conn) |}).
    + apply map_get_set_eq.
    + unfold idle. simpl. apply bool_decide_eq_false. lia.
Qed.

Lemma sweep_all_fresh o (now : Z) (entries : list (string * connectionData)) :
  Forall (λ kv, idle o now kv.2 = false) entries →
  sweep o now entries = (entries, (λ kv, WsPing (ws kv.2)) <$> entries).
Proof.
  induction 1 as [|[k c] rest Hc _ IH]; [done |].
  simpl in *. by rewrite IH, Hc.
Qed.

(** X24: a sweep leaves nothing to evict: a second sweep at the same time,
    or at an earlier one, closes no connection, keeps the registry as the
    first sweep left it and pings every connection in it. *)
Theorem heartbeat_stable (now now' : Z) r :
  now' ≤ now →
  heartbeat now' (heartbeat now r).1
  = ((heartbeat now r).1,
     (λ kv, WsPing (ws kv.2)) <$> connections (heartbeat now r).1).
Proof.
  intros Hle. rewrite (heartbeat_unfold now' _), heartbeat_unfold.
  cbn [fst connections opts with_connections].
  assert (Forall (λ kv, idle (opts r) now' kv.2 = false)
                 (sweep (opts r) now (connections r)).1) as Hfresh.
  { rewrite sweep_kept. apply Forall_forall. intros [k c] Hin.
    apply list_elem_of_filter in Hin as [Hfresh _]. simpl in *.
    unfold idle in *. apply bool_decide_eq_false.
    apply bool_decide_eq_false in Hfresh. lia. }
  by rewrite (sweep_all_fresh _ _ _ Hfresh).
Qed.

(** X25: the relay closes a socket for two reasons only: every close in the
    trace of any sequence of events, from any relay, carries 1008 with
    [Server at max capacity] or 1000 with [Timeout]. *)
Theorem run_close_codes r (events : list event) (w : socket) (code : Z)
    (reason : string) :
  WsClose w code reason ∈ (run r events).2 →
  (code = 1008 ∧ reason = "Server at max capacity")
  ∨ (code = 1000 ∧ reason = "Timeout").
Proof.
  revert r. induction events as [|e events IH]; intros r; simpl.
  - by intros ?%elem_of_nil.
  - destruct (step r e) as [r1 out1] eqn:Hstep.
    specialize (IH r1). destruct (run r1 events) as [r2 out2]. simpl in *.
    intros [Hin | Hin]%elem_of_app; [| by apply IH].
    destruct e as [w0 clientIp cid now1 now2 | cid len state now1 now2 | cid
                   | cid message | cid now | now]; simpl in Hstep.
    + unfold handleConnection in Hstep. case_bool_decide;
        injection Hstep as <- <-.
      * apply elem_of_cons in Hin as [[=] | Hin].
        apply list_elem_of_singleton in Hin as [= _ <- <-]. by left.
      * by apply list_elem_of_singleton in Hin.
    + unfold handleMessage in Hstep.
      destruct (map_get cid (connections r)); injection Hstep as <- <-.
      * apply elem_of_cons in Hin as [[=] | Hin].
        case_decide; [by apply list_elem_of_singleton in Hin
                     | by apply elem_of_nil in Hin].
      * by apply elem_of_nil in Hin.
    + unfold handleClose in Hstep.
      destruct (map_get cid (connections r)); injection Hstep as <- <-.
      * by apply list_elem_of_singleton in Hin.
      * by apply elem_of_nil in Hin.
    + injection Hstep as <- <-. by apply list_elem_of_singleton in Hin.
    + unfold handlePong in Hstep.
      destruct (map_get cid (connections r)); injection Hstep as <- <-;
        by apply elem_of_nil in Hin.
    + rewrite heartbeat_unfold in Hstep. injection Hstep as <- <-.
      right. by eapply sweep_effects_closes.
Qed.

Lemma Math_min_cons (x : Z) (xs : list Z) :
  ∃ m, Math_min (x :: xs) = Fin m ∧ m ∈ x :: xs ∧ Forall (λ y, m ≤ y) (x :: xs).
Proof.
  revert x. induction xs as [|y xs IH]; intros x.
  - exists x. split_and!; [done | apply list_elem_of_here |].
    by apply Forall_singleton.
  - destruct (IH y) as (m & Hmin & Hin & Hall).
    exists (Z.min x m). split_and!.
    + unfold Math_min in *. cbn [foldr] in *. by rewrite Hmin.
    + destruct (Z.min_spec x m) as [[_ ->] | [_ ->]];
        [apply list_elem_of_here | by apply list_elem_of_further].
    + apply Forall_cons. split; [lia |].
      eapply Forall_impl; [exact Hall |]. simpl. lia.
Qed.

(** X26: with at least one connection registered, [getStats] reports a
    finite age for the oldest connection: the time since the smallest
    creation time in the registry, so no connection is older than it. *)
Theorem getStats_oldest (now : Z) r :
  connections r ≠ [] →
  ∃ oldest,
    oldestConnectionAge (getStats now r) = Fin (now - createdAt oldest)
    ∧ oldest ∈ map_values (connections r)
    ∧ ∀ conn, conn ∈ map_values (connections r) →
        now - createdAt conn ≤ now - createdAt oldest.
Proof.
  intros Hne. unfold getStats. simpl.
  destruct (map_values (connections r)) as [|c cs] eqn:Hvalues.
  { destruct (connections r); [done | discriminate]. }
  destruct (Math_min_cons (createdAt c) (createdAt <$> cs))
    as (m & Hmin & Hin & Hall).
  change (createdAt c :: (createdAt <$> cs)) with (createdAt <$> c :: cs) in *.
  apply list_elem_of_fmap in Hin as (oldest & -> & Hin).
  exists oldest. rewrite Hmin. split_and!; [done | done |].
  intros conn Hconn. rewrite Forall_fmap, Forall_forall in Hall.
  specialize (Hall conn Hconn). simpl in Hall. lia.
Qed.

(** X27: an upgrade that finds a free slot registers the connection under
    its id with no message counted: a new id takes one more slot, an id that
    is already registered has its entry replaced and takes no further slot;
    the entries of the other ids are not touched. *)
Theorem handleConnection_accepted (w : socket) (clientIp cid : string)
    (now1 now2 : Z) r :
  (map_size (connections r) < maxConnections (opts r))%nat →
  map_get cid (connections (handleConnection w clientIp cid now1 now2 r).1)
    = Some (mkConnection cid w clientIp now1 now2 0)
  ∧ map_size (connections (handleConnection w clientIp cid now1 now2 r).1)
    = (if map_has cid (connections r) then map_size (connections r)
       else S (map_size (connections r)))
  ∧ (∀ other, other ≠ cid →
       map_get other (connections (handleConnection w clientIp cid now1 now2 r).1)
       = map_get other (connections r))
  ∧ (handleConnection w clientIp cid now1 now2 r).2
    = [LogNewConnection clientIp cid].
Proof.
  intros Hfree. unfold handleConnection.
  rewrite bool_decide_false by lia. simpl. split_and!.
  - apply map_get_set_eq.
  - rewrite map_set_size. unfold map_has.
    destruct (decide (is_Some (map_get cid (connections r)))).
    + by rewrite bool_decide_true.
    + by rewrite bool_decide_false.
  - intros other Hne. by apply map_get_set_ne.
  - done.
Qed.

End RelayMore.

(** ** The [/api/*] handlers, continued *)

Section DispatcherMore.
Import Dispatcher.
Variable TARGET_URL : string.
Variable axios_get : string → gmap string string → axiosResponse + axiosError.
Variable axios_post :
  string → json → gmap string string → axiosResponse + axiosError.
Variable URLSearchParams_toString : list (string * string) → string.

(** Both handlers send [X-Forwarded-For] and [X-Original-URL] with the
    address and the original URL of the request, over whatever the client
    put under these names, and pass every other request header on
    unchanged. *)
Lemma forwardedHeaders_lookup (req : request) (k : string) :
  forwardedHeaders req !! k
  = if decide (k = "X-Original-URL") then Some (originalUrl req)
    else if decide (k = "X-Forwarded-For") then Some (ip req)
    else headers req !! k.
Proof.
  unfold forwardedHeaders. rewrite lookup_insert.
  destruct (decide ("X-Original-URL" = k)) as [<- | Hne].
  - by rewrite decide_True.
  - rewrite decide_False by done. rewrite lookup_insert.
    destruct (decide ("X-Forwarded-For" = k)) as [<- | Hne'].
    + by rewrite decide_True.
    + by rewrite decide_False.
Qed.


End DispatcherMore.

(** ** The service worker injector *)

Section InjectorFacts.
Import Js Text Injector.

Lemma dropPrefix_Some (p s rest : string) :
  dropPrefix p s = Some rest ↔ s = p +:+ rest.
Proof.
  revert s. induction p as [|a p IH]; intros s.
  - simpl. rewrite string_app_nil_l. naive_solver.
  - rewrite string_app_cons. destruct s as [|b s]; simpl; [naive_solver |].
    case_decide as Hab.
    + subst b. rewrite IH. naive_solver.
    + naive_solver.
Qed.

Lemma splitAtFirst_Some (pat s before after : string) :
  splitAtFirst pat s = Some (before, after) →
  s = before +:+ pat +:+ after
  ∧ ∀ before' after',
      s = before' +:+ pat +:+ after' →
      (String.length before ≤ String.length before')%nat.
Proof.
  revert before. induction s as [|a s IH]; intros before.
  - cbn [splitAtFirst]. destruct (dropPrefix pat "") as [rest|] eqn:Hdrop;
      [| done].
    intros [= <- <-]. apply dropPrefix_Some in Hdrop.
    split; [done | simpl; lia].
  - cbn [splitAtFirst].
    destruct (dropPrefix pat (String a s)) as [rest|] eqn:Hdrop.
    + intros [= <- <-]. apply dropPrefix_Some in Hdrop.
      split; [done | simpl; lia].
    + destruct (splitAtFirst pat s) as [[b r]|] eqn:Hrec; [| done].
      intros [= <- <-]. destruct (IH b eq_refl) as [-> Hmin].
      split; [done |]. intros [|c before'] after' Heq.
      * rewrite string_app_nil_l in Heq. apply dropPrefix_Some in Heq.
        congruence.
      * rewrite string_app_cons in Heq. injection Heq as -> Heq.
        simpl. specialize (Hmin _ _ Heq). lia.
Qed.

Lemma splitAtFirst_None (pat s : string) :
  splitAtFirst pat s = None →
  ∀ before after, s ≠ before +:+ pat +:+ after.
Proof.
  induction s as [|a s IH]; cbn [splitAtFirst].
  - destruct (dropPrefix pat "") as [rest|] eqn:Hdrop; [done |].
    intros _ [|c before] after Heq; [| done].
    rewrite string_app_nil_l in Heq. apply dropPrefix_Some in Heq. congruence.
  - destruct (dropPrefix pat (String a s)) as [rest|] eqn:Hdrop; [done |].
    destruct (splitAtFirst pat s) as [[b r]|] eqn:Hrec; [done |].
    intros _ [|c before] after Heq.
    + rewrite string_app_nil_l in Heq. apply dropPrefix_Some in Heq.
      congruence.
    + rewrite string_app_cons in Heq. injection Heq as -> Heq.
      by eapply IH.
Qed.

Lemma string_app_inv_length (b b' x y : string) :
  b +:+ x = b' +:+ y → String.length b = String.length b' → b = b' ∧ x = y.
Proof.
  revert b'. induction b as [|a b IH]; intros [|a' b']; try done.
  rewrite !string_app_cons. intros [= -> Heq] [= Hlen].
  destruct (IH b' Heq Hlen) as [-> ->]. done.
Qed.

Lemma getSubstitution_plain (matched before after template : string) :
  "$"%char ∉ chars template →
  getSubstitution matched before after template = template.
Proof.
  induction template as [|a template IH]; [done |].
  unfold chars. simpl. intros [Hne Hno]%not_elem_of_cons.
  rewrite decide_False by congruence. by rewrite IH.
Qed.

Lemma getSubstitution_app (matched before after t1 t2 : string) :
  "$"%char ∉ chars t1 →
  getSubstitution matched before after (t1 +:+ t2)
  = t1 +:+ getSubstitution matched before after t2.
Proof.
  induction t1 as [|a t1 IH]; [done |].
  unfold chars. simpl. intros [Hne Hno]%not_elem_of_cons.
  rewrite !string_app_cons. cbn [getSubstitution].
  rewrite decide_False by congruence. by rewrite IH.
Qed.

Lemma getSubstitution_dollars (matched before after t : string) :
  getSubstitution matched before after ("$$" +:+ t)
  = "$" +:+ getSubstitution matched before after t.
Proof. reflexivity. Qed.

Lemma injectCode_plain (proxyBaseUrl : string) :
  "$"%char ∉ chars proxyBaseUrl →
  "$"%char ∉ chars (generateServiceWorkerInjectCode proxyBaseUrl +:+ "</body>").
Proof.
  intros Hbase. unfold generateServiceWorkerInjectCode.
  rewrite !chars_app.
  repeat (apply not_elem_of_app; split);
    first [exact Hbase | by apply (bool_decide_unpack _)].
Qed.

(** X29: for a proxy base without a dollar sign, the registration code is
    put right before the first [</body>] of the document and the rest of the
    document is kept as it is; a document without [</body>] gets the code
    at its end. *)
Theorem injectServiceWorker_position (html proxyBaseUrl : string) :
  "$"%char ∉ chars proxyBaseUrl →
  (∀ before after,
     html = before +:+ "</body>" +:+ after →
     (∀ before' after',
        html = before' +:+ "</body>" +:+ after' →
        (String.length before ≤ String.length before')%nat) →
     injectServiceWorker html proxyBaseUrl
     = before +:+ generateServiceWorkerInjectCode proxyBaseUrl
         +:+ "</body>" +:+ after)
  ∧ ((∀ before after, html ≠ before +:+ "</body>" +:+ after) →
     injectServiceWorker html proxyBaseUrl
     = html +:+ generateServiceWorkerInjectCode proxyBaseUrl).
Proof.
  intros Hbase. unfold injectServiceWorker, includes, replace. split.
  - intros before after Hhtml Hfirst.
    destruct (splitAtFirst "</body>" html) as [[b a]|] eqn:Hsplit.
    + rewrite bool_decide_true by eauto.
      destruct (splitAtFirst_Some _ _ _ _ Hsplit) as [Hhtml' Hfirst'].
      assert (b = before ∧ "</body>" +:+ a = "</body>" +:+ after)
        as [-> Hrest].
      { apply string_app_inv_length; [congruence |].
        apply Nat.le_antisymm; eauto. }
      apply string_app_inv_head in Hrest as ->.
      rewrite getSubstitution_plain by by apply injectCode_plain.
      by rewrite string_app_assoc.
    + by apply splitAtFirst_None with (before := before) (after := after)
        in Hsplit.
  - intros Habsent.
    destruct (splitAtFirst "</body>" html) as [[b a]|] eqn:Hsplit.
    + apply splitAtFirst_Some in Hsplit as [Hhtml _]. by apply Habsent in Hhtml.
    + rewrite bool_decide_false; [done | by intros []].
Qed.

(** X30: a dollar sign in the proxy base is read as a replacement pattern
    when the document has a [</body>]: with [$$] in the proxy base the
    injected address has one dollar sign where the address injected into a
    document without [</body>] has two. *)
Theorem injectServiceWorker_dollar (p1 p2 before after other : string) :
  "$"%char ∉ chars p1 →
  "$"%char ∉ chars p2 →
  (∀ before' after',
     before +:+ "</body>" +:+ after = before' +:+ "</body>" +:+ after' →
     (String.length before ≤ String.length before')%nat) →
  (∀ before' after', other ≠ before' +:+ "</body>" +:+ after') →
  injectServiceWorker (before +:+ "</body>" +:+ after) (p1 +:+ "$$" +:+ p2)
  = before +:+ generateServiceWorkerInjectCode (p1 +:+ "$" +:+ p2)
      +:+ "</body>" +:+ after
  ∧ injectServiceWorker other (p1 +:+ "$$" +:+ p2)
    = other +:+ generateServiceWorkerInjectCode (p1 +:+ "$$" +:+ p2).
Proof.
  intros Hp1 Hp2 Hfirst Habsent. split; [| clear Hfirst].
  2: { unfold injectServiceWorker, includes.
       destruct (splitAtFirst "</body>" other) as [[b a]|] eqn:Hsplit.
       - apply splitAtFirst_Some in Hsplit as [Hother _].
         by apply Habsent in Hother.
       - rewrite bool_decide_false; [done | by intros []]. }
  unfold injectServiceWorker, includes, replace.
  destruct (splitAtFirst "</body>" (before +:+ "</body>" +:+ after))
    as [[b a]|] eqn:Hsplit.
  - rewrite bool_decide_true by eauto.
    destruct (splitAtFirst_Some _ _ _ _ Hsplit) as [Hhtml' Hfirst'].
    assert (b = before ∧ "</body>" +:+ a = "</body>" +:+ after)
      as [-> Hrest].
    { apply string_app_inv_length; [congruence |].
      apply Nat.le_antisymm; eauto. }
    apply string_app_inv_head in Hrest as ->.
    assert (getSubstitution "</body>" before after
              (generateServiceWorkerInjectCode (p1 +:+ "$$" +:+ p2)
               +:+ "</body>")
            = generateServiceWorkerInjectCode (p1 +:+ "$" +:+ p2)
              +:+ "</body>") as ->.
    { unfold generateServiceWorkerInjectCode.
      rewrite !string_app_assoc.
      repeat (rewrite getSubstitution_app
                by first [exact Hp1 | by apply (bool_decide_unpack _)]).
      rewrite getSubstitution_dollars.
      repeat (rewrite getSubstitution_app
                by first [exact Hp2 | by apply (bool_decide_unpack _)]).
      rewrite getSubstitution_plain by by apply (bool_decide_unpack _).
      reflexivity. }
    by rewrite string_app_assoc.
  - by apply splitAtFirst_None
      with (before := before) (after := after) in Hsplit.
Qed.

End InjectorFacts.

(** ** The properties above on concrete inputs *)

Lemma rewriteUrl_shape_witness :
  "http://localhost:3000/proxy?url=https%3A%2F%2Fcdn.example.com%2Fa.js"
    = "//cdn.example.com/a.js"
  ∨ ∃ absolute,
      "http://localhost:3000/proxy?url=https%3A%2F%2Fcdn.example.com%2Fa.js"
      = "http://localhost:3000" +:+ "/proxy?url="
          +:+ Js.encodeURIComponent absolute.
Proof.
  apply (rewriteUrl_shape (λ _, None) (λ _ _, None)
           "//cdn.example.com/a.js" "http://localhost:3000"
           "https://api.example.com").
  reflexivity.
Defined.




Lemma proxyLink_injective_witness :
  "https://api.example.com/a b" = "https://api.example.com/a b".
Proof.
  apply (proxyLink_injective "http://localhost:3000"
           "https://api.example.com/a b" "https://api.example.com/a b").
  reflexivity.
Defined.

Lemma rewriteCss_no_paren_witness :
  Css.rewriteCss (λ _, None) (λ _ _, None)
    "body { color: red; margin: 0 }" "http://localhost:3000"
    "https://api.example.com"
  = "body { color: red; margin: 0 }".
Proof.
  apply (rewriteCss_no_paren (λ _, None) (λ _ _, None)).
  apply (bool_decide_unpack _). reflexivity.
Defined.

Lemma rewriteCss_token_witness :
  Css.rewriteCss (λ _, None) (λ _ _, None)
    ("url(" +:+ String Css.doubleQuote "" +:+ "https://cdn.example.com/a.png"
       +:+ String Css.doubleQuote "" +:+ ")")
    "http://localhost:3000" "https://api.example.com"
  = match Rewriter.rewriteUrl (λ _, None) (λ _ _, None)
            "https://cdn.example.com/a.png" "http://localhost:3000"
            "https://api.example.com" with
    | Some rewritten => "url('" +:+ rewritten +:+ "')"
    | None => "url(" +:+ String Css.doubleQuote ""
                +:+ "https://cdn.example.com/a.png"
                +:+ String Css.doubleQuote "" +:+ ")"
    end.
Proof.
  apply (rewriteCss_token (λ _, None) (λ _ _, None)
           (String Css.doubleQuote "") (String Css.doubleQuote "")
           "https://cdn.example.com/a.png").
  - done.
  - apply (bool_decide_unpack _). reflexivity.
  - right. right. reflexivity.
  - right. right. reflexivity.
Defined.

Lemma cookies_session_isolation_witness :
  Cookies.getCookies "s2"
    (Cookies.storeCookies "s1" {[ "a" := Js.VString "1" ]}
       {[ "s2" := {[ "b" := Js.VString "2" ]} ]})
  = Cookies.getCookies "s2" {[ "s2" := {[ "b" := Js.VString "2" ]} ]}
  ∧ Cookies.getCookies "s2"
      (Cookies.relayCookie Js.toLowerCaseASCII (Cookies.mkOptions false false [] [])
         "s1" "a=1" {[ "s2" := {[ "b" := Js.VString "2" ]} ]})
    = Cookies.getCookies "s2" {[ "s2" := {[ "b" := Js.VString "2" ]} ]}
  ∧ Cookies.getCookies "s2"
      (Cookies.clearCookies "s1" {[ "s2" := {[ "b" := Js.VString "2" ]} ]})
    = Cookies.getCookies "s2" {[ "s2" := {[ "b" := Js.VString "2" ]} ]}.
Proof.
  apply (cookies_session_isolation Js.toLowerCaseASCII
           (Cookies.mkOptions false false [] []) "s1" "s2" "a=1").
  done.
Defined.


Lemma parseCookieString_no_equals_witness :
  Cookies.name (Cookies.parseCookieString Js.toLowerCaseASCII "flag; Path=/") = "flag"
  ∧ Cookies.value (Cookies.parseCookieString Js.toLowerCaseASCII "flag; Path=/")
    = Js.VUndefined.
Proof.
  destruct (parseCookieString_no_equals Js.toLowerCaseASCII "flag; Path=/" "flag")
    as (Hname & Hvalue & _).
  - reflexivity.
  - apply (bool_decide_unpack _). reflexivity.
  - by split.
Defined.

Lemma session_cookie_floor_witness :
  Session.httpOnly
    (Session.cookie
       (Session.configureSessionMiddleware
          (Session.mkOptions None None None (Some 0) (Some false) (Some false)
             None None None None)
          (Session.mkEnvironment None (Some "production")))) = true
  ∧ Session.secure
      (Session.cookie
         (Session.configureSessionMiddleware
            (Session.mkOptions None None None (Some 0) (Some false) (Some false)
               None None None None)
            (Session.mkEnvironment None (Some "production")))) = true.
Proof.
  destruct (session_cookie_floor
              (Session.mkOptions None None None (Some 0) (Some false)
                 (Some false) None None None None)
              (Session.mkEnvironment None (Some "production")) eq_refl)
    as (Hhttp & Hsecure & _).
  split; [exact Hhttp | by apply Hsecure].
Defined.

Lemma setAuthState_getAuthState_witness :
  Auth.getAuthState string "s2"
    (Auth.setAuthState string "s1" "alice" 5000
       (Auth.middleware string "s2" 1000 ∅))
  = Auth.getAuthState string "s2" (Auth.middleware string "s2" 1000 ∅).
Proof.
  destruct (setAuthState_getAuthState (Auth.middleware string "s2" 1000 ∅)
              "s1" "alice" 5000) as (_ & _ & _ & _ & Hother).
  by apply Hother.
Defined.

Lemma clearAuthState_getAuthState_witness :
  Auth.getAuthState string "s2"
    (Auth.clearAuthState string "s1"
       (Auth.setAuthState string "s1" "alice" 5000
          (Auth.middleware string "s2" 1000 ∅)))
  = Auth.getAuthState string "s2"
      (Auth.setAuthState string "s1" "alice" 5000
         (Auth.middleware string "s2" 1000 ∅)).
Proof.
  destruct (clearAuthState_getAuthState
              (Auth.setAuthState string "s1" "alice" 5000
                 (Auth.middleware string "s2" 1000 ∅)) "s1")
    as (_ & Hother & _).
  by apply Hother.
Defined.

Lemma middleware_touch_witness :
  Auth.loginTime string
    (Auth.getAuthState string "s1"
       (Auth.middleware string "s1" 9000
          (Auth.setAuthState string "s1" "alice" 5000 ∅)))
  = Auth.Has 5000.
Proof.
  destruct (middleware_touch (Auth.setAuthState string "s1" "alice" 5000 ∅)
              "s1" 9000) as (_ & _ & _ & Hlogin & _).
  apply (Hlogin (Auth.mkAuthState string true (Auth.Has "alice")
                   (Auth.Has 5000) Auth.Missing)).
  reflexivity.
Defined.

Lemma handleMessage_registered_witness :
  Js.map_get "ws-2000-b"
    (Relay.connections
       (Relay.handleMessage "ws-2000-b" 12 Relay.CLOSING 95000 95001
          Relay.sampleRelay).1)
  = Some (Relay.mkConnection "ws-2000-b" 2%nat "10.0.0.2" 2000 95000 1)
  ∧ (Relay.handleMessage "ws-2000-b" 12 Relay.CLOSING 95000 95001
       Relay.sampleRelay).2
    = [Relay.LogMessage "ws-2000-b" 12].
Proof.
  destruct (handleMessage_registered "ws-2000-b" 12 Relay.CLOSING 95000 95001
              Relay.sampleRelay
              (Relay.mkConnection "ws-2000-b" 2%nat "10.0.0.2" 2000 2000 0)
              eq_refl) as (Hget & _ & _ & Hout).
  split; [exact Hget | exact Hout].
Defined.

Lemma activity_survives_sweep_witness :
  Js.map_get "ws-2000-b"
    (Relay.connections
       (Relay.heartbeat 100000
          (Relay.handlePong "ws-2000-b" 40000 Relay.sampleRelay).1).1)
  = Some (Relay.mkConnection "ws-2000-b" 2%nat "10.0.0.2" 2000 40000 0)
  ∧ 2%nat
    ∈ Relay.pinged
        (Relay.heartbeat 100000
           (Relay.handlePong "ws-2000-b" 40000 Relay.sampleRelay).1).2.
Proof.
  destruct (activity_survives_sweep "ws-2000-b" 40000 100000 Relay.sampleRelay
              (Relay.mkConnection "ws-2000-b" 2%nat "10.0.0.2" 2000 2000 0)
              eq_refl) as [Hpong _].
  - vm_compute. discriminate.
  - exact Hpong.
Defined.

Lemma heartbeat_stable_witness :
  Relay.heartbeat 100000 (Relay.heartbeat 100000 Relay.sampleRelay).1
  = ((Relay.heartbeat 100000 Relay.sampleRelay).1,
     (λ kv, Relay.WsPing (Relay.ws kv.2))
       <$> Relay.connections (Relay.heartbeat 100000 Relay.sampleRelay).1).
Proof. apply (heartbeat_stable 100000 100000 Relay.sampleRelay). lia. Defined.

Lemma run_close_codes_witness :
  (1000 = 1008 ∧ "Timeout" = "Server at max capacity")
  ∨ (1000 = 1000 ∧ "Timeout" = "Timeout").
Proof.
  apply (run_close_codes Relay.sampleRelay [Relay.Heartbeat 100000] 2%nat
           1000 "Timeout").
  apply (bool_decide_unpack _). reflexivity.
Defined.

Lemma getStats_oldest_witness :
  ∃ oldest,
    Relay.oldestConnectionAge (Relay.getStats 100000 Relay.sampleRelay)
    = Js.Fin (100000 - Relay.createdAt oldest)
    ∧ oldest ∈ Js.map_values (Relay.connections Relay.sampleRelay)
    ∧ ∀ conn, conn ∈ Js.map_values (Relay.connections Relay.sampleRelay) →
        100000 - Relay.createdAt conn ≤ 100000 - Relay.createdAt oldest.
Proof. apply (getStats_oldest 100000 Relay.sampleRelay). discriminate. Defined.

Lemma handleConnection_accepted_witness :
  Js.map_size
    (Relay.connections
       (Relay.handleConnection 7%nat "10.0.0.7" "ws-1000-a" 7000 7000
          (Relay.handleClose "ws-2000-b" Relay.sampleRelay).1).1)
  = (if Js.map_has "ws-1000-a"
          (Relay.connections (Relay.handleClose "ws-2000-b" Relay.sampleRelay).1)
     then Js.map_size
            (Relay.connections (Relay.handleClose "ws-2000-b" Relay.sampleRelay).1)
     else S (Js.map_size
               (Relay.connections
                  (Relay.handleClose "ws-2000-b" Relay.sampleRelay).1))).
Proof.
  destruct (handleConnection_accepted 7%nat "10.0.0.7" "ws-1000-a" 7000 7000
              (Relay.handleClose "ws-2000-b" Relay.sampleRelay).1)
    as (_ & Hsize & _).
  - vm_compute. lia.
  - exact Hsize.
Defined.


Lemma injectServiceWorker_position_witness :
  Injector.injectServiceWorker "<body>hi</body></html>" "http://localhost:3000"
  = "<body>hi" +:+ Injector.generateServiceWorkerInjectCode "http://localhost:3000"
      +:+ "</body>" +:+ "</html>"
  ∧ Injector.injectServiceWorker "<p>hi</p>" "http://localhost:3000"
    = "<p>hi</p>" +:+ Injector.generateServiceWorkerInjectCode "http://localhost:3000".
Proof.
  split.
  - destruct (injectServiceWorker_position "<body>hi</body></html>"
                "http://localhost:3000") as [Hbody _].
    + apply (bool_decide_unpack _). reflexivity.
    + apply (Hbody "<body>hi" "</html>"); [reflexivity |].
      apply (splitAtFirst_Some "</body>" "<body>hi</body></html>" "<body>hi"
               "</html>"). reflexivity.
  - destruct (injectServiceWorker_position "<p>hi</p>" "http://localhost:3000")
      as [_ Habsent].
    + apply (bool_decide_unpack _). reflexivity.
    + apply Habsent.
      apply (splitAtFirst_None "</body>" "<p>hi</p>"). reflexivity.
Defined.

Lemma injectServiceWorker_dollar_witness :
  Injector.injectServiceWorker ("<body>hi" +:+ "</body>" +:+ "</html>")
    ("http://localhost:3000/a" +:+ "$$" +:+ "b")
  = "<body>hi"
      +:+ Injector.generateServiceWorkerInjectCode
            ("http://localhost:3000/a" +:+ "$" +:+ "b")
      +:+ "</body>" +:+ "</html>"
  ∧ Injector.injectServiceWorker "<p>hi</p>"
      ("http://localhost:3000/a" +:+ "$$" +:+ "b")
    = "<p>hi</p>"
        +:+ Injector.generateServiceWorkerInjectCode
              ("http://localhost:3000/a" +:+ "$$" +:+ "b").
Proof.
  apply (injectServiceWorker_dollar "http://localhost:3000/a" "b" "<body>hi"
           "</html>" "<p>hi</p>").
  - apply (bool_decide_unpack _). reflexivity.
  - apply (bool_decide_unpack _). reflexivity.
  - apply (splitAtFirst_Some "</body>" "<body>hi</body></html>" "<body>hi"
             "</html>"). reflexivity.
  - apply (splitAtFirst_None "</body>" "<p>hi</p>"). reflexivity.
Defined.
